(** * ico_to_svg: frame-size selection, scanline vectorisation and path emission

    A shallow embedding of [ico_to_svg/ico_parser.py] ([select_size]) and
    [ico_to_svg/svg_writer.py] ([Run], [vectorize], [runs_to_path_d]),
    followed by the properties the specification states about them.

    Python integers are unbounded, so every [int] is a [Z].  A raised
    exception is the [Raise] branch of [result].  The dictionary built by
    [vectorize] is a [gmap] from colour keys to lists of runs: the order of
    the runs under a key is kept, the order in which the keys were
    inserted is not, and no property below depends on it.  The two
    [while] loops of [vectorize] recurse on the distance to the right
    edge, so they are total functions. *)

From stdpp Require Import gmap list strings sorting.
From Stdlib Require Import ZArith Lia Ascii DecimalString DecimalZ DecimalPos.
From Stdlib Require HexadecimalString.
From Equations Require Import Equations.

Open Scope Z_scope.

(** ** Python values shared by both modules *)

Module Py.

(** Exceptions raised by the code under study. *)
Inductive exn : Type :=
| ValueError (msg : string).

Inductive result (A : Type) : Type :=
| Ok (a : A)
| Raise (e : exn).
Global Arguments Ok {A} a.
Global Arguments Raise {A} e.

(** Comparison [a < b] of two tuples of integers: the first position at
    which they differ decides, and a proper prefix is smaller. *)
Fixpoint tuple_lt (a b : list Z) : bool :=
  match a, b with
  | x :: a', y :: b' => if x =? y then tuple_lt a' b' else x <? y
  | [], _ :: _ => true
  | _, [] => false
  end.

Section MinMax.
Context {A : Type} (key : A → list Z).

(** [max(first :: rest, key=key)]: the running best is replaced only by
    an item whose key is strictly greater, so the first maximal item
    wins. *)
Fixpoint max_from (best : A) (rest : list A) : A :=
  match rest with
  | [] => best
  | x :: rest' =>
      max_from (if tuple_lt (key best) (key x) then x else best) rest'
  end.

(** [min(first :: rest, key=key)]: replaced only by a strictly smaller
    key. *)
Fixpoint min_from (best : A) (rest : list A) : A :=
  match rest with
  | [] => best
  | x :: rest' =>
      min_from (if tuple_lt (key x) (key best) then x else best) rest'
  end.
End MinMax.

End Py.

(** ** ico_parser.py *)

Module IcoParser.
Import Py.

(** A frame size [(width, height)]. *)
Definition Size : Type := Z * Z.

(** The error of an icon without frames. *)
Definition NoSizesAvailable : exn := ValueError "No sizes available in ICO".

(** [lambda s: (s[0] * s[1], s[0], s[1])] *)
Definition largest_key (s : Size) : list Z := [s.1 * s.2; s.1; s.2].

(** [lambda s: (abs(s[0] - s[1]), s[0] * s[1], s[0], s[1])] *)
Definition nearest_key (s : Size) : list Z :=
  [Z.abs (s.1 - s.2); s.1 * s.2; s.1; s.2].

(** [w >= dw and h >= dh] of the list comprehension. *)
Definition fits (dw dh : Z) (s : Size) : bool := (dw <=? s.1) && (dh <=? s.2).

(** [select_size(available, desired)].  The guard [if not available] and
    the call [max(available, ...)] on the then non-empty list are the two
    branches of the first match.  A 2-tuple is always truthy, so
    [if not desired] is taken by [None] alone.  [larger] is the filtered
    list, and [if larger] its non-empty branch. *)
Definition select_size (available : list Size) (desired : option Size)
  : result Size :=
  match available with
  | [] => Raise NoSizesAvailable
  | first :: rest =>
      let largest := max_from largest_key first rest in
      match desired with
      | None => Ok largest
      | Some (dw, dh) =>
          if bool_decide ((dw, dh) ∈ available) then Ok (dw, dh)
          else
            match List.filter (fits dw dh) available with
            | c :: cs => Ok (min_from nearest_key c cs)
            | [] => Ok largest
            end
      end
  end.

End IcoParser.

(** ** svg_writer.py *)

Module SvgWriter.
Import Py.

(** [@dataclass class Run]: row [y], columns [x1] to [x2], both inclusive. *)
Record Run : Type := mkRun { y : Z; x1 : Z; x2 : Z }.

(** What [pixels[x, y]] evaluates to: a tuple of band values, or a bare
    number for a single-band image. *)
Inductive pixel : Type :=
| Tuple (bands : list Z)
| Scalar (v : Z).

(** The part of a PIL image the code reads: [image.size] and the pixel
    access object returned by [image.load()], which may be [None]. *)
Record Image : Type := mkImage {
  size : Z * Z;
  load : option (Z → Z → pixel)
}.

(** A dictionary key [(r, g, b, 255)]. *)
Definition Color : Type := Z * Z * Z * Z.

(** [color_runs.setdefault(color, []).append(run)] *)
Definition append_run (color_runs : gmap Color (list Run)) (color : Color)
    (run : Run) : gmap Color (list Run) :=
  <[color := default [] (color_runs !! color) ++ [run]]> color_runs.

Section Row.
Context (pixels : Z → Z → pixel) (alpha_threshold w : Z) (y : Z).

(** The inner [while x < w] loop: advances [x] over the pixels that
    continue the run of colour [(r, g, b)] and returns the column at
    which it stops. *)
Equations? extend_run (r g b x : Z) : Z by wf (Z.to_nat (w - x)) lt :=
  extend_run r g b x with decide (x < w) => {
    | right _ => x
    | left _ with pixels x y => {
      | Tuple (r2 :: g2 :: b2 :: a2 :: _) =>
          if (a2 <? alpha_threshold)
             || negb (bool_decide ((r2, g2, b2) = (r, g, b)))
          then x
          else extend_run r g b (x + 1)
      | _ => x } }.
Proof. lia. Qed.

(** The outer [while x < w] loop over one row, threading the
    dictionary. *)
Equations? scan_row (x : Z) (color_runs : gmap Color (list Run))
  : gmap Color (list Run) by wf (Z.to_nat (w - x)) lt :=
  scan_row x color_runs with decide (x < w) => {
    | right _ => color_runs
    | left _ with pixels x y => {
      | Tuple (r :: g :: b :: a :: _) =>
          if a <? alpha_threshold then scan_row (x + 1) color_runs
          else
            let color := (r, g, b, 255) in
            let x_start := x in
            let x' := extend_run r g b (x + 1) in
            let x_end := x' - 1 in
            scan_row x' (append_run color_runs color (mkRun y x_start x_end))
      | _ => scan_row (x + 1) color_runs } }.
Proof.
  all: try lia.
  (* the inner loop never moves left, so the run is at least one wide *)
  enough (x + 1 ≤ extend_run r g b (x + 1)) by lia.
  generalize (x + 1). clear. intros x.
  funelim (extend_run r g b x); try lia.
  destruct (_ || _); lia.
Qed.
End Row.

Definition vectorize (image : Image) (alpha_threshold : Z)
  : result (gmap Color (list Run) * Z * Z) :=
  let '(w, h) := size image in
  match load image with
  | None => Raise (ValueError "Failed to load image pixels")
  | Some pixels =>
      let color_runs :=
        foldl (λ color_runs y,
                 scan_row pixels alpha_threshold w y 0 color_runs)
              ∅ (seqZ 0 h) in
      Ok (color_runs, w, h)
  end.

(** [str(n)] of an integer, as an f-string renders it. *)
Definition str (n : Z) : string := NilZero.string_of_int (Z.to_int n).

(** [f"M{x1},{y}H{x2}V{y + 1}H{x1}Z"] *)
Definition subpath (x1 y x2 : Z) : string :=
  "M" +:+ str x1 +:+ "," +:+ str y +:+ "H" +:+ str x2 +:+
  "V" +:+ str (y + 1) +:+ "H" +:+ str x1 +:+ "Z".

Definition runs_to_path_d (runs : list Run) : string :=
  let parts :=
    foldl (λ parts run,
             let x1 := run.(x1) in
             let x2 := run.(x2) + 1 in
             let y := run.(y) in
             parts ++ [subpath x1 y x2])
          [] runs in
  String.concat " " parts.

End SvgWriter.

(** ** A reader for SVG path data

    The path emitter writes a fragment of the SVG path grammar: absolute
    [M], [H], [V] and [Z] commands with integer arguments.  This reader
    gives that fragment its meaning: each piece between spaces must be one
    closed subpath [M x,y H x' V y' H x'' Z], whose corner points it
    returns in the order the pen visits them. *)

Module PathData.

Definition point : Type := Z * Z.

Definition is_digit (c : ascii) : bool :=
  (48 <=? nat_of_ascii c)%nat && (nat_of_ascii c <=? 57)%nat.

(** The longest prefix of decimal digits, and what follows it. *)
Fixpoint span_digits (s : string) : string * string :=
  match s with
  | String c s' =>
      if is_digit c
      then let '(digits, rest) := span_digits s' in (String c digits, rest)
      else (EmptyString, s)
  | EmptyString => (EmptyString, EmptyString)
  end.

(** An optional minus sign, and what follows it. *)
Definition read_sign (s : string) : string * string :=
  match s with
  | String c s' =>
      if Ascii.eqb c "-" then ("-"%string, s') else (EmptyString, s)
  | EmptyString => (EmptyString, s)
  end.

(** An integer: an optional minus sign and at least one digit. *)
Definition read_int (s : string) : option (Z * string) :=
  let '(sign, body) := read_sign s in
  let '(digits, rest) := span_digits body in
  n ← NilZero.int_of_string (sign +:+ digits);
  Some (Z.of_int n, rest).

(** The command letter or separator [c]. *)
Definition expect (c : ascii) (s : string) : option string :=
  match s with
  | String c' s' => if Ascii.eqb c c' then Some s' else None
  | EmptyString => None
  end.

(** One closed subpath: move to [(mx, my)], horizontal line to [hx],
    vertical line to [vy], horizontal line to [hx'], close.  Nothing may
    follow the [Z]. *)
Definition read_subpath (s : string) : option (list point) :=
  s ← expect "M" s;
  '(mx, s) ← read_int s;
  s ← expect "," s;
  '(my, s) ← read_int s;
  s ← expect "H" s;
  '(hx, s) ← read_int s;
  s ← expect "V" s;
  '(vy, s) ← read_int s;
  s ← expect "H" s;
  '(hx', s) ← read_int s;
  s ← expect "Z" s;
  match s with
  | EmptyString => Some [(mx, my); (hx, my); (hx, vy); (hx', vy)]
  | _ => None
  end.

(** The pieces between single spaces; two spaces in a row, or a space at
    either end, leave an empty piece. *)
Fixpoint split_spaces (s : string) : list string :=
  match s with
  | EmptyString => [EmptyString]
  | String c s' =>
      if Ascii.eqb c " " then EmptyString :: split_spaces s'
      else match split_spaces s' with
           | piece :: pieces => String c piece :: pieces
           | [] => [String c EmptyString]
           end
  end.

(** The subpaths of a path data string, in order.  The empty string has
    none; otherwise every piece must read as a subpath. *)
Definition read_path (d : string) : option (list (list point)) :=
  match d with
  | EmptyString => Some []
  | _ => mapM read_subpath (split_spaces d)
  end.

(** The corners of the axis-aligned rectangle from [lo] to [hi], starting
    at [lo] and following the top edge first. *)
Definition rectangle (lo hi : point) : list point :=
  [(lo.1, lo.2); (hi.1, lo.2); (hi.1, hi.2); (lo.1, hi.2)].

(** The unit square whose top-left corner is [(px, py)] lies inside the
    rectangle from [lo] to [hi]. *)
Definition unit_square_within (lo hi : point) (px py : Z) : Prop :=
  lo.1 ≤ px ∧ px + 1 ≤ hi.1 ∧ lo.2 ≤ py ∧ py + 1 ≤ hi.2.

(** No character of the string is a space. *)
Fixpoint space_free (s : string) : bool :=
  match s with
  | EmptyString => true
  | String c s' => negb (Ascii.eqb c " ") && space_free s'
  end.

End PathData.

(** ** More Python builtins

    The builtins used by the remaining functions of [ico_parser.py],
    [svg_writer.py], [core.py] and [cli.py]. *)

Module Builtins.
Import Py.

(** Sequencing of computations that may raise. *)
#[global] Instance result_ret : MRet result := λ A a, Ok a.
#[global] Instance result_bind : MBind result := λ A B k m,
  match m with
  | Ok a => k a
  | Raise e => Raise e
  end.

(** [c in s] for a one-character string [c]. *)
Fixpoint contains (c : ascii) (s : string) : bool :=
  match s with
  | EmptyString => false
  | String c' s' => Ascii.eqb c' c || contains c s'
  end.

(** [s.split(c)] for a one-character separator [c]: the pieces between
    the occurrences of [c], one more than there are occurrences. *)
Fixpoint split (c : ascii) (s : string) : list string :=
  match s with
  | EmptyString => [EmptyString]
  | String c' s' =>
      if Ascii.eqb c' c then EmptyString :: split c s'
      else match split c s' with
           | piece :: pieces => String c' piece :: pieces
           | [] => [String c' EmptyString]
           end
  end.

(** [s.startswith(c)] for a one-character string [c]. *)
Definition startswith (c : ascii) (s : string) : bool :=
  match s with
  | String c' _ => Ascii.eqb c' c
  | EmptyString => false
  end.

(** Truth value of an optional string: [None] and [""] are false. *)
Definition truthy (s : option string) : bool :=
  match s with
  | Some (String _ _) => true
  | _ => false
  end.

Section Sorted.
Context {A : Type} (key : A → list Z).

(** One step of a stable sort: [x], which came before every item of the
    sorted list [l] in the input, goes in front of the first item whose key
    is not smaller than its own. *)
Fixpoint insert_sorted (x : A) (l : list A) : list A :=
  match l with
  | [] => [x]
  | y :: l' =>
      if tuple_lt (key y) (key x) then y :: insert_sorted x l'
      else x :: y :: l'
  end.

(** [sorted(l, key=key)]: ascending by key, items of equal key in input
    order. *)
Definition sorted (l : list A) : list A := foldr insert_sorted [] l.
End Sorted.

(** [format(n, "02x")]: lower-case hexadecimal, the sign first, zeros after
    the sign up to a width of two characters. *)
Definition format_02x (n : Z) : string :=
  let digits :=
    HexadecimalString.NilZero.string_of_uint (N.to_hex_uint (Z.abs_N n)) in
  let sign := if n <? 0 then "-"%string else EmptyString in
  let zeros :=
    String.concat EmptyString
      (replicate (2 - String.length sign - String.length digits) "0"%string)
  in
  sign +:+ zeros +:+ digits.

End Builtins.

(** ** ico_parser.py, the rest *)

Module IcoParserArgs.
Import Py IcoParser Builtins.

Section ParseSizeArg.

(** [str.lower] and [int] on strings are taken as they come: the first
    maps a string to a string, the second returns an integer or raises
    [ValueError]. *)
Context (lower : string → string) (int : string → result Z).

Definition parse_size_arg (size_str : string) : result (Z * Z) :=
  '(w, h) ←
    (if contains "x" (lower size_str) then
       let parts := split "x" (lower size_str) in
       match parts with
       | [part0; part1] =>
           w ← int part0;
           h ← int part1;
           Ok (w, h)
       | _ => Raise (ValueError "--size must be like 256 or 256x256")
       end
     else
       w ← int size_str;
       Ok (w, w));
  if (w <=? 0) || (h <=? 0)
  then Raise (ValueError "--size dimensions must be positive")
  else Ok (w, h).

End ParseSizeArg.

(** What [load_ico_frames] reads of the image [Image.open] returned:
    [im.info.get("sizes")], the attribute [n_frames] when the image has
    one, and the size [(im.width, im.height)] of each frame. *)
Record IcoImage : Type := mkIcoImage {
  info_sizes : option (list Size);
  n_frames : option Z;
  frame_size : Z → Size
}.

(** [list({...})]: the distinct items, in an order Python does not fix. *)
Definition list_of_set (items : list Size) : list Size :=
  elements (list_to_set items : gset Size).

(** [load_ico_frames], from the opened image on.  The frame the image
    stands at is part of the loop state: it starts at frame 0 and moves
    only when [im.seek(i)] is called. *)
Definition load_ico_frames (im : IcoImage) : list Size :=
  match info_sizes im with
  | Some (size :: sizes) => list_of_set (size :: sizes)
  | _ =>
      let n := default 1 (n_frames im) in
      let '(_, frames) :=
        foldl (λ '(current, frames) i,
                 let current := if 1 <? n then i else current in
                 (current, frames ++ [frame_size im current]))
              (0, []) (seqZ 0 n) in
      list_of_set frames
  end.

End IcoParserArgs.

(** ** svg_writer.py, the vector writer *)

Module SvgVector.
Import Py SvgWriter Builtins.

(** The elements the writer asks [svgwrite] for. *)
Inductive element : Type :=
| Rect (insert size : Z * Z) (fill : string)
| Path (d fill stroke : string).

(** The drawing that is saved: target file, size and view box attributes,
    and the elements added, in order. *)
Record Drawing : Type := mkDrawing {
  filename : string;
  size_attr : string * string;
  viewBox : string;
  elements_of : list element
}.

(** A call into the library returns, or raises an exception of the
    library. *)
Inductive outcome (E A : Type) : Type :=
| Done (a : A)
| Raised (e : E).
Global Arguments Done {E A} a.
Global Arguments Raised {E A} e.

#[global] Instance outcome_ret {E} : MRet (outcome E) := λ A a, Done a.
#[global] Instance outcome_bind {E} : MBind (outcome E) := λ A B k m,
  match m with
  | Done a => k a
  | Raised e => Raised e
  end.

(** [f"#{r:02x}{g:02x}{b:02x}"] *)
Definition fill_of (r g b : Z) : string :=
  "#" +:+ format_02x r +:+ format_02x g +:+ format_02x b.

(** [svgwrite] checks the values it is handed and raises on one it does
    not accept: a fill that is no colour, path data that is no path, a file
    it cannot write.  Which values it accepts is the library's matter, so
    its checks are taken as they come, one per call the writer makes; a
    check answers [None] when the call goes through and the exception it
    raises otherwise.  A call that goes through builds what it was asked
    for. *)
Section Svgwrite.
Context {E : Type}.
Context (check_drawing : Drawing → option E)
        (check_element : Drawing → element → option E)
        (check_add : Drawing → element → option E)
        (check_save : Drawing → option E).

Definition checked {A : Type} (raised : option E) (a : A) : outcome E A :=
  match raised with
  | Some e => Raised e
  | None => Done a
  end.

(** [svgwrite.Drawing(filename, size=size, viewBox=viewBox)] *)
Definition new_drawing (filename : string) (size : string * string)
    (viewBox : string) : outcome E Drawing :=
  let dwg := mkDrawing filename size viewBox [] in
  checked (check_drawing dwg) dwg.

(** [dwg.rect(insert=insert, size=size, fill=fill)] *)
Definition rect (dwg : Drawing) (insert size : Z * Z) (fill : string)
  : outcome E element :=
  let el := Rect insert size fill in
  checked (check_element dwg el) el.

(** [dwg.path(d=d, fill=fill, stroke=stroke)] *)
Definition path (dwg : Drawing) (d fill stroke : string)
  : outcome E element :=
  let el := Path d fill stroke in
  checked (check_element dwg el) el.

(** [dwg.add(el)] *)
Definition add (dwg : Drawing) (el : element) : outcome E Drawing :=
  checked (check_add dwg el)
    (mkDrawing (filename dwg) (size_attr dwg) (viewBox dwg)
               (elements_of dwg ++ [el])).

(** [dwg.save()]; what it returns here is the drawing it wrote. *)
Definition save (dwg : Drawing) : outcome E Drawing :=
  checked (check_save dwg) dwg.

(** The [for] loop of [write_svg_vector] over the items that are left: an
    exception ends it. *)
Fixpoint add_paths (dwg : Drawing) (items : list (Color * list Run))
  : outcome E Drawing :=
  match items with
  | [] => Done dwg
  | ((r, g, b, _a), runs) :: items' =>
      let fill := fill_of r g b in
      let d := runs_to_path_d runs in
      el ← path dwg d fill "none";
      dwg ← add dwg el;
      add_paths dwg items'
  end.

(** [write_svg_vector]; [color_runs] is the dictionary as the list of its
    items, in the order [items()] yields them.  The function returns
    nothing: what is kept of a call that returns is the drawing written to
    [output]. *)
Definition write_svg_vector (color_runs : list (Color * list Run))
    (width height : Z) (output : string) (background : option string)
  : outcome E Drawing :=
  dwg ← new_drawing output (str width +:+ "px", str height +:+ "px")
          ("0 0 " +:+ str width +:+ " " +:+ str height);
  dwg ←
    match background with
    | Some bg =>
        if truthy background && negb (String.eqb bg "transparent")
        then el ← rect dwg (0, 0) (width, height) bg;
             add dwg el
        else Done dwg
    | None => Done dwg
    end;
  dwg ← add_paths dwg color_runs;
  save dwg.

End Svgwrite.

End SvgVector.

(** ** core.py and cli.py *)

Module Cli.
Import Py IcoParser IcoParserArgs SvgWriter Builtins.

Section Main.
Context (lower : string → string) (int : string → result Z).

(** The size [convert_ico_to_svg] opens the icon at: the first three
    statements of its body, from the loaded [sizes] on. *)
Definition convert_size (sizes : list Size) (size : option string)
  : result Size :=
  desired ←
    (if truthy size
     then desired ← parse_size_arg lower int (default EmptyString size);
          Ok (Some desired)
     else Ok None);
  select_size sizes desired.

(** The rewriting of [argv] at the start of [main]: a first argument that
    is neither a subcommand nor an option makes the call a [convert]. *)
Definition legacy_argv (argv : list string) : list string :=
  match argv with
  | first :: _ =>
      if negb (bool_decide (first ∈ ["convert"; "info"]%string))
         && negb (startswith "-" first)
      then "convert"%string :: argv
      else argv
  | [] => argv
  end.

(** [f" - {w}x{h}"] *)
Definition size_line (s : Size) : string :=
  " - " +:+ str s.1 +:+ "x" +:+ str s.2.

(** The double quote character. *)
Definition dquote : string := String (ascii_of_nat 34) EmptyString.

(** [json.dumps({"width": w, "height": h})] *)
Definition size_json (s : Size) : string :=
  "{" +:+ dquote +:+ "width" +:+ dquote +:+ ": " +:+ str s.1 +:+ ", " +:+
  dquote +:+ "height" +:+ dquote +:+ ": " +:+ str s.2 +:+ "}".

(** The [info] subcommand, from the loaded [sizes] on: the lines it
    prints, or the exception that ends it. *)
Definition info (sizes : list Size) (size : option string) (json : bool)
  : result (list string) :=
  sizes ←
    (if truthy size
     then desired ← parse_size_arg lower int (default EmptyString size);
          selected ← select_size sizes (Some desired);
          Ok [selected]
     else Ok sizes);
  if json then
    let out := size_json <$> sorted largest_key sizes in
    Ok ["[" +:+ String.concat ", " out +:+ "]"]
  else
    match sizes with
    | [] => Ok ["No sizes found"%string]
    | _ => Ok ("Available sizes:"%string
               :: (size_line <$> sorted largest_key sizes))
    end.

End Main.

End Cli.

Import Py IcoParser SvgWriter PathData.
Import Builtins IcoParserArgs SvgVector Cli.

(** ** Specification-level vocabulary *)

(** Strict lexicographic order on triples and on quadruples of integers. *)
Definition lex3_lt (a b : Z * Z * Z) : Prop :=
  let '(a1, a2, a3) := a in
  let '(b1, b2, b3) := b in
  a1 < b1 ∨ a1 = b1 ∧ (a2 < b2 ∨ a2 = b2 ∧ a3 < b3).

Definition lex4_lt (a b : Z * Z * Z * Z) : Prop :=
  let '(a1, a2, a3, a4) := a in
  let '(b1, b2, b3, b4) := b in
  a1 < b1 ∨ a1 = b1 ∧ (a2 < b2 ∨ a2 = b2 ∧ (a3 < b3 ∨ a3 = b3 ∧ a4 < b4)).

(** The tuple [(area, width, height)] of a size. *)
Definition area_tuple (s : Size) : Z * Z * Z := (s.1 * s.2, s.1, s.2).

(** The tuple [(|width - height|, area, width, height)] of a size. *)
Definition square_tuple (s : Size) : Z * Z * Z * Z :=
  (Z.abs (s.1 - s.2), s.1 * s.2, s.1, s.2).

(** A size is a candidate for [desired] when it is at least as large in both
    dimensions. *)
Definition candidate (desired s : Size) : Prop :=
  desired.1 ≤ s.1 ∧ desired.2 ≤ s.2.

(** *** Vectorisation *)

(** The alpha band of a pixel, when it has one. *)
Definition alpha (p : pixel) : option Z :=
  match p with
  | Tuple (_ :: _ :: _ :: a :: _) => Some a
  | _ => None
  end.

(** The dictionary key under which a pixel is filed: its colour with the
    alpha band forced to 255. *)
Definition color_key (p : pixel) : option Color :=
  match p with
  | Tuple (r :: g :: b :: _ :: _) => Some (r, g, b, 255)
  | _ => None
  end.

(** The unit squares a run covers. *)
Definition covers (run : Run) (x y : Z) : Prop :=
  SvgWriter.y run = y ∧ x1 run ≤ x ≤ x2 run.

(** [run] is the [i]-th run recorded under colour [c]. *)
Definition entry (t : gmap Color (list Run)) (c : Color) (i : nat)
    (run : Run) : Prop :=
  ∃ runs, t !! c = Some runs ∧ runs !! i = Some run.

(** The pixel at [(x, y)] has an alpha band and it reaches the threshold. *)
Definition above_threshold (pixels : Z → Z → pixel) (threshold x y : Z)
  : Prop :=
  ∃ a, alpha (pixels x y) = Some a ∧ threshold ≤ a.

(** The pixel at [(x, y)] reaches the threshold and is filed under [c]. *)
Definition solid (pixels : Z → Z → pixel) (threshold : Z) (c : Color)
    (x y : Z) : Prop :=
  color_key (pixels x y) = Some c ∧ above_threshold pixels threshold x y.

(** A [w] by [h] bitmap with pixel access, as [vectorize] receives it. *)
Definition bitmap (pixels : Z → Z → pixel) (w h : Z) : Image :=
  mkImage (w, h) (Some pixels).

(** Every pixel of the bitmap has colour [(r, g, b)] and an alpha band that
    reaches the threshold. *)
Definition single_colored (pixels : Z → Z → pixel) (threshold w h : Z)
    (r g b : Z) : Prop :=
  ∀ x y, 0 ≤ x < w → 0 ≤ y < h →
         ∃ a rest, pixels x y = Tuple (r :: g :: b :: a :: rest) ∧
                   threshold ≤ a.

(** The table with the single key [c] whose list holds one run per row of
    a [w] by [h] bitmap, in row order, each from column [0] to column
    [w - 1]. *)
Definition one_run_per_row (w h : Z) (c : Color)
    (t : gmap Color (list Run)) : Prop :=
  ∃ runs, t = {[ c := runs ]} ∧
          length runs = Z.to_nat h ∧
          ∀ i : nat, (i < Z.to_nat h)%nat →
                     runs !! i = Some (mkRun (Z.of_nat i) 0 (w - 1)).

(** *** The invariant of the scan *)

Section ScanInvariant.

Context (pixels : Z → Z → pixel) (threshold w : Z).

(** The pixels already passed when the scan stands at column [x] of row
    [y]: all of the rows above, and the columns to the left in row [y]. *)
Definition scanned (y x px py : Z) : Prop :=
  0 ≤ px < w ∧ 0 ≤ py ∧ (py < y ∨ py = y ∧ px < x).

(** What holds of a run recorded under colour [c] when the scan stands at
    [(x, y)]: it lies inside the image and behind the scan, it is not
    empty, every pixel of it is solid of colour [c], and the pixel just
    right of it, if any, is not. *)
Definition run_ok (y x : Z) (c : Color) (run : Run) : Prop :=
  0 ≤ SvgWriter.y run ∧
  0 ≤ x1 run ≤ x2 run ∧ x2 run < w ∧
  (SvgWriter.y run < y ∨ SvgWriter.y run = y ∧ x2 run < x) ∧
  (∀ px, x1 run ≤ px ≤ x2 run →
         solid pixels threshold c px (SvgWriter.y run)) ∧
  (x2 run + 1 < w →
   ¬ solid pixels threshold c (x2 run + 1) (SvgWriter.y run)).

Record scan_inv (t : gmap Color (list Run)) (y x : Z) : Prop := {
  inv_sound : ∀ c i run, entry t c i run → run_ok y x c run;
  inv_complete : ∀ px py,
    scanned y x px py → above_threshold pixels threshold px py →
    ∃ c i run, entry t c i run ∧ covers run px py;
  inv_disjoint : ∀ c i run c' i' run' px py,
    entry t c i run → entry t c' i' run' →
    covers run px py → covers run' px py →
    c = c' ∧ i = i'
}.

End ScanInvariant.

(** *** Path emission *)

(** The text [runs_to_path_d] writes for one run. *)
Definition run_subpath (run : Run) : string :=
  subpath (x1 run) (SvgWriter.y run) (x2 run + 1).

(** The rectangle of unit squares a run stands for: from
    [(x1, y)] to [(x2 + 1, y + 1)]. *)
Definition run_rectangle (run : Run) : list point :=
  rectangle (x1 run, SvgWriter.y run) (x2 run + 1, SvgWriter.y run + 1).

(** *** Size selection as a relation *)

(** [r] is the size the three rules of [select_size] single out of
    [available] for [desired]: the exact match, else the candidate with
    the least [square_tuple], else, like for an absent [desired], the size
    with the greatest [area_tuple]. *)
Definition largest_of (available : list Size) (r : Size) : Prop :=
  r ∈ available ∧
  ∀ s, s ∈ available → s = r ∨ lex3_lt (area_tuple s) (area_tuple r).

Definition nearest_of (available : list Size) (d r : Size) : Prop :=
  r ∈ available ∧ candidate d r ∧
  ∀ s, s ∈ available → candidate d s →
       s = r ∨ lex4_lt (square_tuple r) (square_tuple s).

Definition selects (available : list Size) (desired : option Size)
    (r : Size) : Prop :=
  match desired with
  | None => largest_of available r
  | Some d =>
      (d ∈ available ∧ r = d) ∨
      ((d ∉ available) ∧ nearest_of available d r) ∨
      ((d ∉ available) ∧ (∀ s, s ∈ available → ¬ candidate d s) ∧
       largest_of available r)
  end.

(** *** Size arguments *)

(** How many times the character [c] occurs in [s]. *)
Fixpoint occurrences (c : ascii) (s : string) : nat :=
  match s with
  | EmptyString => 0%nat
  | String c' s' => ((if Ascii.eqb c' c then 1 else 0) + occurrences c s')%nat
  end.

(** One way to fill the two parameters of [parse_size_arg], used to run it
    on examples: lower-casing of the letters [A] to [Z], and reading of a
    decimal numeral with an optional minus sign. *)
Fixpoint ascii_lower (s : string) : string :=
  match s with
  | EmptyString => EmptyString
  | String c s' =>
      String (if (65 <=? nat_of_ascii c)%nat && (nat_of_ascii c <=? 90)%nat
              then ascii_of_nat (nat_of_ascii c + 32) else c)
             (ascii_lower s')
  end.

Definition decimal_int (s : string) : result Z :=
  match NilZero.int_of_string s with
  | Some d => Ok (Z.of_int d)
  | None => Raise (ValueError "invalid literal for int()")
  end.

(** *** Listings *)

(** [a] is listed no later than [b]: it is [b] itself or has the smaller
    [area_tuple]. *)
Definition area_le (a b : Size) : Prop :=
  a = b ∨ lex3_lt (area_tuple a) (area_tuple b).

(** *** The order of the scan *)

(** [run] lies before [run'] in scan order: on an earlier row, or on the
    same row and wholly to the left. *)
Definition run_before (run run' : Run) : Prop :=
  SvgWriter.y run < SvgWriter.y run' ∨
  (SvgWriter.y run = SvgWriter.y run' ∧ x2 run < x1 run').

Section ScanOrder.

Context (pixels : Z → Z → pixel) (threshold w : Z).

(** What the scan keeps besides [scan_inv]: no key has an empty list, the
    runs under a key are in scan order, the pixel just left of a run is
    not solid of the run's colour, and neither are the pixel left of the
    scan position and the pixel at it solid of one colour. *)
Record order_inv (t : gmap Color (list Run)) (y x : Z) : Prop := {
  ord_nonempty : ∀ c runs, t !! c = Some runs → runs ≠ [];
  ord_sorted : ∀ c i j run run',
    entry t c i run → entry t c j run' → (i < j)%nat →
    run_before run run';
  ord_left : ∀ c i run,
    entry t c i run → 0 < x1 run →
    ¬ solid pixels threshold c (x1 run - 1) (SvgWriter.y run);
  ord_edge : ∀ c,
    0 < x → x < w →
    solid pixels threshold c (x - 1) y → ¬ solid pixels threshold c x y
}.

End ScanOrder.

(** What the scan sees of a pixel: the key it is filed under when it has
    four bands and its alpha reaches the threshold, and nothing
    otherwise. *)
Definition view (threshold : Z) (p : pixel) : option Color :=
  match p with
  | Tuple (r :: g :: b :: a :: _) =>
      if a <? threshold then None else Some (r, g, b, 255)
  | _ => None
  end.

(** *** Fill colours *)

(** The value of a lower-case hexadecimal digit. *)
Definition hex_digit (c : ascii) : option Z :=
  let n := Z.of_nat (nat_of_ascii c) in
  if (48 <=? n) && (n <=? 57) then Some (n - 48)
  else if (97 <=? n) && (n <=? 102) then Some (n - 87)
  else None.

(** A byte written as exactly two lower-case hexadecimal digits. *)
Definition read_byte (hi lo : ascii) : option Z :=
  h ← hex_digit hi; l ← hex_digit lo; Some (16 * h + l).

(** A colour written as [#rrggbb]. *)
Definition read_fill (s : string) : option (Z * Z * Z) :=
  match s with
  | String "#" (String r1 (String r0 (String g1 (String g0
      (String b1 (String b0 EmptyString)))))) =>
      r ← read_byte r1 r0; g ← read_byte g1 g0; b ← read_byte b1 b0;
      Some (r, g, b)
  | _ => None
  end.

(** The background rectangle the vector writer draws first, if any: for a
    background that is given, not empty and not ["transparent"]. *)
Definition background_rect (width height : Z) (background : option string)
  : list element :=
  match background with
  | Some bg =>
      if decide (bg ≠ EmptyString ∧ bg ≠ "transparent"%string)
      then [Rect (0, 0) (width, height) bg] else []
  | None => []
  end.

(** The path the vector writer asks for an item of the dictionary. *)
Definition item_path (item : Color * list Run) : element :=
  let '((r, g, b, _), runs) := item in
  Path (runs_to_path_d runs) (fill_of r g b) "none".

(** The drawing of the vector writer that holds the elements [els]. *)
Definition drawing_with (output : string) (width height : Z)
    (els : list element) : Drawing :=
  mkDrawing output (str width +:+ "px", str height +:+ "px")
            ("0 0 " +:+ str width +:+ " " +:+ str height) els.

(** The first exception among the answers of a sequence of checks. *)
Fixpoint first_raised {E : Type} (checks : list (option E)) : option E :=
  match checks with
  | [] => None
  | Some e :: _ => Some e
  | None :: checks' => first_raised checks'
  end.

(** The checks met when the elements [els] are created and added, one
    after the other, to a drawing that holds [held] already. *)
Fixpoint element_checks {E : Type}
    (check_element check_add : Drawing → element → option E)
    (dwg : list element → Drawing) (held els : list element)
  : list (option E) :=
  match els with
  | [] => []
  | el :: els' =>
      check_element (dwg held) el :: check_add (dwg held) el ::
      element_checks check_element check_add dwg (held ++ [el]) els'
  end.

(** All the checks of one call of the vector writer that asks for the
    elements [els], in the order they are met: the drawing, each element,
    the saving. *)
Definition writer_checks {E : Type} (check_drawing : Drawing → option E)
    (check_element check_add : Drawing → element → option E)
    (check_save : Drawing → option E)
    (dwg : list element → Drawing) (els : list element)
  : list (option E) :=
  check_drawing (dwg []) ::
  element_checks check_element check_add dwg [] els ++
  [check_save (dwg els)].

(** A library for the examples.  It takes for a colour only [#] followed
    by six lower-case hexadecimal digits, which is less than [svgwrite]
    takes, and it takes no empty path data; the exception it raises is the
    value it turned down. *)
Definition hex_only (_ : Drawing) (el : element) : option string :=
  match el with
  | Rect _ _ fill =>
      match read_fill fill with
      | Some _ => None
      | None => Some fill
      end
  | Path d fill _ =>
      match read_fill fill, d with
      | None, _ => Some fill
      | Some _, EmptyString => Some d
      | Some _, String _ _ => None
      end
  end.

Definition always {A : Type} (_ : A) : option string := None.

(** ** Tuple comparison and the [min]/[max] builtins *)

Section TupleOrder.

Lemma tuple_lt_irrefl a : tuple_lt a a = false.
Proof. induction a as [|x a IH]; simpl; [done|]. by rewrite Z.eqb_refl. Qed.

Lemma tuple_lt_asym a b : tuple_lt a b = true → tuple_lt b a = false.
Proof.
  revert b. induction a as [|x a IH]; intros [|y b]; simpl; try done.
  rewrite (Z.eqb_sym y x). destruct (Z.eqb_spec x y); [by auto|].
  rewrite Z.ltb_lt, Z.ltb_ge. lia.
Qed.

(** [a <= b] is read as "not [b < a]"; it is transitive because the
    comparison is total. *)
Lemma tuple_le_trans a b c :
  tuple_lt b a = false → tuple_lt c b = false → tuple_lt c a = false.
Proof.
  revert b c. induction a as [|x a IH]; intros [|y b] [|z c]; simpl; try done.
  destruct (Z.eqb_spec y x), (Z.eqb_spec z y), (Z.eqb_spec z x);
    try lia; eauto; rewrite ?Z.ltb_ge; lia.
Qed.

Context {A : Type} (key : A → list Z).

Lemma max_from_spec best rest :
  max_from key best rest ∈ best :: rest ∧
  ∀ x, x ∈ best :: rest →
       tuple_lt (key (max_from key best rest)) (key x) = false.
Proof.
  revert best. induction rest as [|x rest IH]; intros best; simpl.
  - split; [left|]. intros z ->%list_elem_of_singleton.
    apply tuple_lt_irrefl.
  - destruct (IH (if tuple_lt (key best) (key x) then x else best))
      as [Hin Hmax].
    destruct (tuple_lt (key best) (key x)) eqn:Hbx; split.
    + by right.
    + intros z [->|Hz]%elem_of_cons; [|by apply Hmax].
      eapply tuple_le_trans; [by apply tuple_lt_asym|]. apply Hmax. left.
    + apply elem_of_cons in Hin as [->|Hin]; [left|by do 2 right].
    + intros z [->|[->|Hz]%elem_of_cons]%elem_of_cons.
      * apply Hmax. left.
      * eapply tuple_le_trans; [exact Hbx|]. apply Hmax. left.
      * apply Hmax. by right.
Qed.

Lemma min_from_spec best rest :
  min_from key best rest ∈ best :: rest ∧
  ∀ x, x ∈ best :: rest →
       tuple_lt (key x) (key (min_from key best rest)) = false.
Proof.
  revert best. induction rest as [|x rest IH]; intros best; simpl.
  - split; [left|]. intros z ->%list_elem_of_singleton.
    apply tuple_lt_irrefl.
  - destruct (IH (if tuple_lt (key x) (key best) then x else best))
      as [Hin Hmin].
    destruct (tuple_lt (key x) (key best)) eqn:Hxb; split.
    + by right.
    + intros z [->|Hz]%elem_of_cons; [|by apply Hmin].
      eapply tuple_le_trans; [|by apply tuple_lt_asym]. apply Hmin. left.
    + apply elem_of_cons in Hin as [->|Hin]; [left|by do 2 right].
    + intros z [->|[->|Hz]%elem_of_cons]%elem_of_cons.
      * apply Hmin. left.
      * eapply tuple_le_trans; [|exact Hxb]. apply Hmin. left.
      * apply Hmin. by right.
Qed.

End TupleOrder.

(** ** Frame-size selection *)

Section SizeSelector.

Implicit Types (available : list Size) (desired s r : Size).

Lemma largest_key_max s r :
  tuple_lt (largest_key r) (largest_key s) = false →
  s = r ∨ lex3_lt (area_tuple s) (area_tuple r).
Proof.
  destruct s as [w h], r as [w' h'].
  unfold largest_key, area_tuple, lex3_lt; simpl.
  repeat (case_match; try done); rewrite ?Z.ltb_ge;
    repeat match goal with H : (_ =? _) = _ |- _ =>
      first [apply Z.eqb_eq in H | apply Z.eqb_neq in H] end;
    intros; try lia.
  left. f_equal; lia.
Qed.

Lemma nearest_key_min s r :
  tuple_lt (nearest_key s) (nearest_key r) = false →
  s = r ∨ lex4_lt (square_tuple r) (square_tuple s).
Proof.
  destruct s as [w h], r as [w' h'].
  unfold nearest_key, square_tuple, lex4_lt; simpl.
  repeat (case_match; try done); rewrite ?Z.ltb_ge;
    repeat match goal with H : (_ =? _) = _ |- _ =>
      first [apply Z.eqb_eq in H | apply Z.eqb_neq in H] end;
    intros; try lia.
  left. f_equal; lia.
Qed.

Lemma fits_candidate dw dh s : fits dw dh s = true ↔ candidate (dw, dh) s.
Proof.
  unfold fits, candidate; simpl.
  rewrite andb_true_iff, !Z.leb_le. done.
Qed.

Lemma elem_of_larger dw dh available s :
  s ∈ List.filter (fits dw dh) available ↔
  s ∈ available ∧ candidate (dw, dh) s.
Proof.
  rewrite !list_elem_of_In, filter_In, fits_candidate. done.
Qed.

(** What [select_size] returns when [desired] is [None]. *)
Lemma select_size_none first rest :
  select_size (first :: rest) None = Ok (max_from largest_key first rest).
Proof. done. Qed.

(** The three branches taken for a present [desired]. *)
Lemma select_size_some first rest dw dh :
  select_size (first :: rest) (Some (dw, dh)) =
    if bool_decide ((dw, dh) ∈ first :: rest) then Ok (dw, dh)
    else match List.filter (fits dw dh) (first :: rest) with
         | c :: cs => Ok (min_from nearest_key c cs)
         | [] => Ok (max_from largest_key first rest)
         end.
Proof. done. Qed.

End SizeSelector.

(** C9. [select_size] applied to an empty list of sizes raises the
    "no sizes available" error whatever [desired] is, present or absent,
    and so never returns a size. *)
Theorem select_size_empty (desired : option Size) :
  select_size [] desired = Raise NoSizesAvailable ∧
  ∀ s, select_size [] desired ≠ Ok s.
Proof. split; [done|]. intros s. discriminate. Qed.

(** C3. For a non-empty collection of sizes and no desired size,
    [select_size] returns an element of the collection whose tuple
    [(area, width, height)] is the lexicographic maximum: every other
    element has a strictly smaller tuple. *)
Theorem select_size_none_is_largest (available : list Size) :
  available ≠ [] →
  ∃ r, select_size available None = Ok r ∧
       r ∈ available ∧
       ∀ s, s ∈ available → s = r ∨ lex3_lt (area_tuple s) (area_tuple r).
Proof.
  destruct available as [|first rest]; [done|]. intros _.
  exists (max_from largest_key first rest).
  destruct (max_from_spec largest_key first rest) as [Hin Hmax].
  split; [apply select_size_none|]. split; [done|].
  intros s Hs. by apply largest_key_max, Hmax.
Qed.

Lemma select_size_none_is_largest_witness :
  [(16, 16); (64, 32); (32, 64)] ≠ [] ∧
  ∃ r, select_size [(16, 16); (64, 32); (32, 64)] None = Ok r ∧
       r ∈ [(16, 16); (64, 32); (32, 64)] ∧
       ∀ s, s ∈ [(16, 16); (64, 32); (32, 64)] →
            s = r ∨ lex3_lt (area_tuple s) (area_tuple r).
Proof.
  split; [discriminate|].
  apply (select_size_none_is_largest [(16, 16); (64, 32); (32, 64)]).
  discriminate.
Defined.

(** C7. Whenever the desired size is itself one of the available sizes
    (which makes the collection non-empty), [select_size] returns exactly
    the desired size. *)
Theorem select_size_exact (available : list Size) (desired : Size) :
  available ≠ [] →
  desired ∈ available →
  select_size available (Some desired) = Ok desired.
Proof.
  destruct available as [|first rest]; [done|]. intros _ Hin.
  destruct desired as [dw dh]. rewrite select_size_some.
  by rewrite bool_decide_eq_true_2.
Qed.

Lemma select_size_exact_witness :
  [(16, 16); (32, 32); (64, 64)] ≠ [] ∧
  (32, 32) ∈ [(16, 16); (32, 32); (64, 64)] ∧
  select_size [(16, 16); (32, 32); (64, 64)] (Some (32, 32)) = Ok (32, 32).
Proof.
  assert (Hin : (32, 32) ∈ [(16, 16); (32, 32); (64, 64)])
    by (apply elem_of_cons; right; apply elem_of_cons; by left).
  split; [discriminate|]. split; [exact Hin|].
  apply (select_size_exact [(16, 16); (32, 32); (64, 64)] (32, 32));
    [discriminate|exact Hin].
Defined.

(** C4. For a non-empty collection and a present desired size, when no
    available size is at least as large as the desired one in both
    dimensions, [select_size] returns the very size it returns for an
    absent desired size. *)
Theorem select_size_fallback (available : list Size) (desired : Size) :
  available ≠ [] →
  (∀ s, s ∈ available → ¬ candidate desired s) →
  ∃ r, select_size available (Some desired) = Ok r ∧
       select_size available None = Ok r.
Proof.
  destruct available as [|first rest]; [done|]. intros _ Hnone.
  destruct desired as [dw dh].
  exists (max_from largest_key first rest). split; [|done].
  rewrite select_size_some.
  rewrite bool_decide_eq_false_2.
  - destruct (List.filter _ _) as [|c cs] eqn:Hlarger; [done|].
    assert (Hc : c ∈ List.filter (fits dw dh) (first :: rest))
      by (rewrite Hlarger; left).
    apply elem_of_larger in Hc as [Hc Hfit]. by destruct (Hnone c).
  - intros Hin. apply (Hnone _ Hin). unfold candidate; simpl. lia.
Qed.

Lemma select_size_fallback_witness :
  [(16, 16); (32, 32); (48, 48)] ≠ [] ∧
  (∀ s, s ∈ [(16, 16); (32, 32); (48, 48)] → ¬ candidate (100, 100) s) ∧
  ∃ r, select_size [(16, 16); (32, 32); (48, 48)] (Some (100, 100)) = Ok r ∧
       select_size [(16, 16); (32, 32); (48, 48)] None = Ok r.
Proof.
  assert (Hnone : ∀ s, s ∈ [(16, 16); (32, 32); (48, 48)] →
                       ¬ candidate (100, 100) s).
  { intros s Hs [Hw Hh].
    repeat (apply elem_of_cons in Hs as [->|Hs]; [simpl in *; lia|]).
    by apply elem_of_nil in Hs. }
  split; [discriminate|]. split; [exact Hnone|].
  apply (select_size_fallback [(16, 16); (32, 32); (48, 48)] (100, 100));
    [discriminate|exact Hnone].
Defined.

(** C1. For a non-empty collection and a present desired size that is not
    in it, if some available size is at least as large as the desired one
    in both dimensions, then [select_size] returns one of those candidates,
    and every other candidate has a strictly greater tuple
    [(|width - height|, area, width, height)] in lexicographic order: the
    result is the unique strict minimum.  In particular the sizes
    (40,40), (50,30), (60,60) with desired (35,35) give (40,40). *)
Theorem select_size_nearest_larger :
  (∀ (available : list Size) (desired : Size),
     available ≠ [] →
     desired ∉ available →
     (∃ s, s ∈ available ∧ candidate desired s) →
     ∃ r, select_size available (Some desired) = Ok r ∧
          r ∈ available ∧ candidate desired r ∧
          ∀ s, s ∈ available → candidate desired s →
               s = r ∨ lex4_lt (square_tuple r) (square_tuple s)) ∧
  select_size [(40, 40); (50, 30); (60, 60)] (Some (35, 35)) = Ok (40, 40).
Proof.
  split; [|done].
  intros [|first rest] [dw dh] Hne Hnotin [s0 [Hs0 Hfit0]]; [done|].
  rewrite select_size_some, bool_decide_eq_false_2 by done.
  destruct (List.filter _ _) as [|c cs] eqn:Hlarger.
  { assert (Hc : s0 ∈ List.filter (fits dw dh) (first :: rest))
      by by apply elem_of_larger.
    rewrite Hlarger in Hc. by apply elem_of_nil in Hc. }
  destruct (min_from_spec nearest_key c cs) as [Hin Hmin].
  rewrite <- Hlarger in Hin, Hmin.
  apply elem_of_larger in Hin as [Hin Hfit].
  exists (min_from nearest_key c cs). repeat split; try done; try apply Hfit.
  intros s Hs Hcand. apply nearest_key_min, Hmin. by apply elem_of_larger.
Qed.

Lemma select_size_nearest_larger_witness :
  [(32, 64); (64, 64)] ≠ [] ∧
  ((50, 50) ∉ [(32, 64); (64, 64)]) ∧
  (∃ s, s ∈ [(32, 64); (64, 64)] ∧ candidate (50, 50) s) ∧
  ∃ r, select_size [(32, 64); (64, 64)] (Some (50, 50)) = Ok r ∧
       r ∈ [(32, 64); (64, 64)] ∧ candidate (50, 50) r ∧
       ∀ s, s ∈ [(32, 64); (64, 64)] → candidate (50, 50) s →
            s = r ∨ lex4_lt (square_tuple r) (square_tuple s).
Proof.
  assert (Hnotin : (50, 50) ∉ [(32, 64); (64, 64)]).
  { intros Hin.
    repeat (apply elem_of_cons in Hin as [Hin|Hin]; [discriminate|]).
    by apply elem_of_nil in Hin. }
  assert (Hcand : ∃ s, s ∈ [(32, 64); (64, 64)] ∧ candidate (50, 50) s).
  { exists (64, 64). split; [right; left|]. unfold candidate; simpl. lia. }
  split; [discriminate|]. split; [exact Hnotin|]. split; [exact Hcand|].
  apply (proj1 select_size_nearest_larger [(32, 64); (64, 64)] (50, 50));
    [discriminate|exact Hnotin|exact Hcand].
Defined.

(** C10. For a non-empty collection of sizes and any desired argument,
    present or absent, [select_size] returns a size, and that size is an
    element of the collection. *)
Theorem select_size_in_available (available : list Size)
    (desired : option Size) :
  available ≠ [] →
  ∃ r, select_size available desired = Ok r ∧ r ∈ available.
Proof.
  destruct available as [|first rest]; [done|]. intros _.
  destruct (max_from_spec largest_key first rest) as [Hlargest _].
  destruct desired as [[dw dh]|]; [|by eexists].
  rewrite select_size_some. case_bool_decide as Hexact; [by eexists|].
  destruct (List.filter _ _) as [|c cs] eqn:Hlarger; [by eexists|].
  destruct (min_from_spec nearest_key c cs) as [Hin _].
  rewrite <- Hlarger in Hin. apply elem_of_larger in Hin as [Hin _].
  by eexists.
Qed.

Lemma select_size_in_available_witness :
  [(16, 32); (32, 32); (64, 32)] ≠ [] ∧
  ∃ r, select_size [(16, 32); (32, 32); (64, 32)] (Some (24, 24)) = Ok r ∧
       r ∈ [(16, 32); (32, 32); (64, 32)].
Proof.
  split; [discriminate|].
  apply (select_size_in_available [(16, 32); (32, 32); (64, 32)]
           (Some (24, 24))).
  discriminate.
Defined.

(** ** Scanline vectorisation *)

Section ColorRunTable.

Implicit Types (t : gmap Color (list Run)) (c : Color) (run : Run).

Lemma entry_empty c i run : ¬ entry ∅ c i run.
Proof. intros (runs & Hc & _). by rewrite lookup_empty in Hc. Qed.

(** Appending a run leaves every recorded entry where it was and adds
    exactly one entry, at the end of the list of its colour. *)
Lemma entry_append_run t c run c' i run' :
  entry (append_run t c run) c' i run' ↔
  entry t c' i run' ∨
  (c' = c ∧ i = length (default [] (t !! c)) ∧ run' = run).
Proof.
  unfold entry, append_run. destruct (decide (c' = c)) as [->|Hne].
  - rewrite lookup_insert_eq. split.
    + intros (runs & [= <-] & Hi).
      apply lookup_app_Some in Hi as [Hi|[Hlen Hi]].
      * left. destruct (t !! c) as [old|]; [by eauto|done].
      * right. apply list_lookup_singleton_Some in Hi as [Hi ->].
        split; [done|]. split; [lia|done].
    + intros [(runs & Hc & Hi)|(_ & -> & ->)]; eexists; (split; [done|]).
      * rewrite Hc. simpl. by apply lookup_app_l_Some.
      * by rewrite lookup_app_r, Nat.sub_diag.
  - rewrite lookup_insert_ne by done. split; [by left|].
    by intros [?|[? _]].
Qed.

End ColorRunTable.

Section Scanline.

Context (pixels : Z → Z → pixel) (threshold w : Z).

Implicit Types (t : gmap Color (list Run)) (c : Color) (run : Run).

Lemma solid_above c x y :
  solid pixels threshold c x y → above_threshold pixels threshold x y.
Proof. by intros [_ ?]. Qed.

Lemma solid_unique c c' x y :
  solid pixels threshold c x y → solid pixels threshold c' x y → c = c'.
Proof. intros [Hc _] [Hc' _]. congruence. Qed.

Lemma above_threshold_solid x y :
  above_threshold pixels threshold x y → ∃ c, solid pixels threshold c x y.
Proof.
  intros (a & Ha & Hle). unfold solid, above_threshold.
  destruct (pixels x y) as [[|r [|g [|b [|a' rest]]]]|] eqn:Hp;
    try discriminate.
  exists (r, g, b, 255). split; [done|]. by exists a.
Qed.

(** The test that starts a run, in terms of the pixel read. *)
Lemma solid_tuple r g b a rest x y :
  pixels x y = Tuple (r :: g :: b :: a :: rest) →
  (a <? threshold) = false →
  solid pixels threshold (r, g, b, 255) x y.
Proof.
  intros Hp Ha%Z.ltb_ge. split; [by rewrite Hp|].
  exists a. by rewrite Hp.
Qed.

Lemma not_above_tuple r g b a rest x y :
  pixels x y = Tuple (r :: g :: b :: a :: rest) →
  (a <? threshold) = true →
  ¬ above_threshold pixels threshold x y.
Proof.
  intros Hp Ha%Z.ltb_lt (a' & Ha' & Hle). rewrite Hp in Ha'.
  simpl in Ha'. injection Ha' as <-. lia.
Qed.

Lemma not_above_short x y :
  alpha (pixels x y) = None → ¬ above_threshold pixels threshold x y.
Proof. intros Hp (a & Ha & _). congruence. Qed.

(** *** The inner loop *)

(** Started at [x <= w], the inner loop stops at a column [x'] with
    [x <= x' <= w]; every pixel it passed continues the run, and the pixel
    it stopped at, if any, does not. *)
Lemma extend_run_spec y r g b x :
  x ≤ w →
  x ≤ extend_run pixels threshold w y r g b x ≤ w ∧
  (∀ px, x ≤ px < extend_run pixels threshold w y r g b x →
         solid pixels threshold (r, g, b, 255) px y) ∧
  (extend_run pixels threshold w y r g b x < w →
   ¬ solid pixels threshold (r, g, b, 255)
       (extend_run pixels threshold w y r g b x) y).
Proof.
  funelim (extend_run pixels threshold w y r g b x); intros Hxw;
    try (split; [lia|]; split; [intros; lia|]; try lia;
         intros _ [Hkey _];
         match goal with Hp : pixels _ _ = _ |- _ => by rewrite Hp in Hkey end).
  (* the pixel is a tuple with at least four bands *)
  match goal with Hp : pixels _ _ = _ |- _ => rename Hp into Hpixel end.
  destruct (a2 <? threshold) eqn:Ha; simpl.
  { split; [lia|]. split; [intros; lia|].
    intros _ [_ Habove]. by eapply not_above_tuple. }
  case_bool_decide as Hrgb; simpl.
  - injection Hrgb as -> -> ->.
    match goal with IH : _ → _ ∧ _ |- _ =>
      destruct IH as (Hbound & Hpass & Hstop); [lia|] end.
    split; [lia|]. split; [|done].
    intros px Hpx. destruct (decide (px = x)) as [->|Hne].
    + by eapply solid_tuple.
    + apply Hpass. lia.
  - split; [lia|]. split; [intros; lia|].
    intros _ [Hkey _]. rewrite Hpixel in Hkey. simpl in Hkey. congruence.
Qed.

(** *** Steps of the scan *)

Lemma run_ok_mono y x y' x' c run :
  (y < y' ∨ y = y' ∧ x ≤ x') →
  run_ok pixels threshold w y x c run →
  run_ok pixels threshold w y' x' c run.
Proof.
  unfold run_ok. intros Hle (? & ? & ? & ? & ? & ?).
  split_and!; auto; lia.
Qed.

Lemma scan_inv_empty : scan_inv pixels threshold w ∅ 0 0.
Proof.
  split.
  - intros c i run Hentry. by apply entry_empty in Hentry.
  - intros px py ([? ?] & ? & [?|[? ?]]); lia.
  - intros c i run c' i' run' px py Hentry. by apply entry_empty in Hentry.
Qed.

(** Skipping a pixel that is not above the threshold. *)
Lemma scan_inv_skip t y x :
  scan_inv pixels threshold w t y x →
  ¬ above_threshold pixels threshold x y →
  scan_inv pixels threshold w t y (x + 1).
Proof.
  intros [Hsound Hcomplete Hdisjoint] Hskip. split; [| |done].
  - intros c i run Hentry. eapply run_ok_mono; [|by eauto]. lia.
  - intros px py (Hpx & Hpy & Hbehind) Habove.
    destruct (decide (py = y ∧ px = x)) as [[-> ->]|Hne]; [done|].
    apply Hcomplete; [|done]. unfold scanned. lia.
Qed.

(** Recording the run of columns [x .. x' - 1] of row [y]. *)
Lemma scan_inv_append t y x x' c :
  scan_inv pixels threshold w t y x →
  0 ≤ y → 0 ≤ x → x < x' ≤ w →
  (∀ px, x ≤ px < x' → solid pixels threshold c px y) →
  (x' < w → ¬ solid pixels threshold c x' y) →
  scan_inv pixels threshold w (append_run t c (mkRun y x (x' - 1))) y x'.
Proof.
  intros [Hsound Hcomplete Hdisjoint] Hy Hx Hx' Hpass Hstop.
  assert (Hnew : run_ok pixels threshold w y x' c (mkRun y x (x' - 1))).
  { unfold run_ok; simpl. split_and!; try lia.
    - intros px Hpx. apply Hpass. lia.
    - replace (x' - 1 + 1) with x' by lia. done. }
  split.
  - intros c' i run [Hold|(-> & _ & ->)]%entry_append_run; [|done].
    eapply run_ok_mono; [|by eauto]. lia.
  - intros px py (Hpx & Hpy & Hbehind) Habove.
    destruct (decide (py = y ∧ x ≤ px)) as [[-> Hge]|Hlt].
    + exists c, (length (default [] (t !! c))), (mkRun y x (x' - 1)).
      split; [apply entry_append_run; by right|].
      unfold covers; simpl. lia.
    + destruct (Hcomplete px py) as (c' & i & run & Hentry & Hcov);
        [unfold scanned; lia|done|].
      exists c', i, run. split; [|done]. apply entry_append_run. by left.
  - intros c1 i1 run1 c2 i2 run2 px py.
    intros [Hold1|(-> & -> & ->)]%entry_append_run
           [Hold2|(-> & -> & ->)]%entry_append_run Hcov1 Hcov2.
    + by eapply Hdisjoint.
    + apply Hsound in Hold1 as (_ & _ & _ & Hbehind & _).
      unfold covers in *; simpl in *. lia.
    + apply Hsound in Hold2 as (_ & _ & _ & Hbehind & _).
      unfold covers in *; simpl in *. lia.
    + done.
Qed.

(** The end of a row is the start of the next one. *)
Lemma scan_inv_next_row t y x :
  scan_inv pixels threshold w t y x → w ≤ x →
  scan_inv pixels threshold w t (y + 1) 0.
Proof.
  intros [Hsound Hcomplete Hdisjoint] Hx. split; [| |done].
  - intros c i run Hentry. apply Hsound in Hentry.
    destruct Hentry as (? & ? & ? & ? & ? & ?).
    unfold run_ok. split_and!; auto; lia.
  - intros px py (Hpx & Hpy & Hbehind) Habove.
    apply Hcomplete; [|done]. unfold scanned. lia.
Qed.

(** *** The outer loop over one row *)

(** From any column of row [y], the row loop carries the invariant to the
    end of the row. *)
Lemma scan_row_inv y x t :
  scan_inv pixels threshold w t y x → 0 ≤ y → 0 ≤ x ≤ w →
  scan_inv pixels threshold w (scan_row pixels threshold w y x t) y w.
Proof.
  funelim (scan_row pixels threshold w y x t); intros Hinv Hy Hx;
    (* a pixel without an alpha band is skipped *)
    try (match goal with
         | IH : _ → _ → _ → scan_inv _ _ _ ?t' _ _ |- scan_inv _ _ _ ?t' _ _ =>
             apply IH; [|done|lia]
         end;
         apply scan_inv_skip; [done|]; apply not_above_short;
         match goal with Hp : pixels _ _ = _ |- _ => by rewrite Hp end).
  - (* past the last column *)
    by assert (x = w) as -> by lia.
  - (* four bands or more *)
    match goal with Hp : pixels _ _ = _ |- _ => rename Hp into Hpixel end.
    destruct (a <? threshold) eqn:Ha.
    + (* below the threshold: skipped *)
      match goal with
      | IH : _ → _ → _ → scan_inv _ _ _ ?t' _ _ |- scan_inv _ _ _ ?t' _ _ =>
          apply IH; [|done|lia]
      end.
      apply scan_inv_skip; [done|]. by eapply not_above_tuple.
    + (* the start of a run *)
      simpl.
      destruct (extend_run_spec y r g b (x + 1)) as (Hbound & Hpass & Hstop);
        [lia|].
      match goal with
      | IH : _ → _ → _ → scan_inv _ _ _ ?t' _ _ |- scan_inv _ _ _ ?t' _ _ =>
          apply IH; [|done|lia]
      end.
      apply scan_inv_append; [done|done|lia|lia| |done].
      intros px Hpx. destruct (decide (px = x)) as [->|Hne].
      * by eapply solid_tuple.
      * apply Hpass. lia.
Qed.

(** Scanning a whole row moves the invariant to the start of the next. *)
Lemma scan_row_next y t :
  scan_inv pixels threshold w t y 0 → 0 ≤ y →
  scan_inv pixels threshold w (scan_row pixels threshold w y 0 t) (y + 1) 0.
Proof.
  intros Hinv Hy. destruct (decide (0 ≤ w)) as [Hw|Hw].
  - eapply scan_inv_next_row; [by apply scan_row_inv|done].
  - simp scan_row. destruct (decide (0 < w)); [lia|]. simpl.
    eapply scan_inv_next_row; [done|lia].
Qed.

(** *** The loop over the rows *)

Lemma scan_rows_inv (k : nat) :
  scan_inv pixels threshold w
    (foldl (λ color_runs y, scan_row pixels threshold w y 0 color_runs)
           ∅ (seqZ 0 (Z.of_nat k)))
    (Z.of_nat k) 0.
Proof.
  induction k as [|k IH].
  - apply scan_inv_empty.
  - rewrite seqZ_S, foldl_snoc, Nat2Z.inj_succ. unfold Z.succ. simpl.
    apply scan_row_next; [done|lia].
Qed.

End Scanline.

Section Vectorizer.

Context (pixels : Z → Z → pixel) (threshold w h : Z).

(** [vectorize] returns on every bitmap, and the table it returns satisfies
    the scan invariant at the end of the last row. *)
Lemma vectorize_inv :
  ∃ t, vectorize (bitmap pixels w h) threshold = Ok (t, w, h) ∧
       scan_inv pixels threshold w t (Z.of_nat (Z.to_nat h)) 0.
Proof.
  eexists. split; [done|].
  replace (seqZ 0 h) with (seqZ 0 (Z.of_nat (Z.to_nat h)))
    by (unfold seqZ; by rewrite Nat2Z.id).
  apply scan_rows_inv.
Qed.

Lemma vectorize_run_ok t c i run :
  vectorize (bitmap pixels w h) threshold = Ok (t, w, h) →
  entry t c i run →
  0 ≤ SvgWriter.y run < h ∧ 0 ≤ x1 run ≤ x2 run ∧ x2 run < w ∧
  (∀ px, x1 run ≤ px ≤ x2 run →
         solid pixels threshold c px (SvgWriter.y run)) ∧
  (x2 run + 1 < w →
   ¬ solid pixels threshold c (x2 run + 1) (SvgWriter.y run)).
Proof.
  destruct vectorize_inv as (t' & -> & [Hsound _ _]). intros [= <-] Hentry.
  apply Hsound in Hentry as (? & ? & ? & ? & ? & ?).
  split_and!; auto; lia.
Qed.

End Vectorizer.

(** C2. For every bitmap and every alpha threshold, [vectorize] returns a
    table such that a pixel is covered by some recorded run exactly when it
    lies in the bitmap and its alpha reaches the threshold, and such that
    no pixel is covered by two different entries of the table (two
    positions in the run lists, of the same colour or of different
    colours). *)
Theorem vectorize_partition (pixels : Z → Z → pixel) (threshold w h : Z) :
  ∃ t, vectorize (bitmap pixels w h) threshold = Ok (t, w, h) ∧
       (∀ x y,
          (∃ c i run, entry t c i run ∧ covers run x y) ↔
          0 ≤ x < w ∧ 0 ≤ y < h ∧ above_threshold pixels threshold x y) ∧
       (∀ x y c i run c' i' run',
          entry t c i run → entry t c' i' run' →
          covers run x y → covers run' x y →
          c = c' ∧ i = i').
Proof.
  destruct (vectorize_inv pixels threshold w h)
    as (t & Hvec & [Hsound Hcomplete Hdisjoint]).
  exists t. split; [done|]. split.
  - intros x y. split.
    + intros (c & i & run & Hentry & <- & Hx).
      destruct (vectorize_run_ok _ _ _ _ _ _ _ _ Hvec Hentry)
        as (? & ? & ? & Hsolid & _).
      split; [lia|]. split; [lia|].
      eapply solid_above. by apply Hsolid.
    + intros (Hx & Hy & Habove). apply Hcomplete; [|done].
      unfold scanned. lia.
  - intros x y c i run c' i' run'. apply Hdisjoint.
Qed.

(** C8. For every bitmap and every alpha threshold, each run recorded by
    [vectorize] starts no later than it ends, and two different entries
    recorded for the same row under the same colour key are separated by
    at least one column that belongs to neither: they neither overlap nor
    touch. *)
Theorem vectorize_runs_separated (pixels : Z → Z → pixel)
    (threshold w h : Z) :
  ∃ t, vectorize (bitmap pixels w h) threshold = Ok (t, w, h) ∧
       (∀ c i run, entry t c i run → x1 run ≤ x2 run) ∧
       (∀ c i j run run',
          entry t c i run → entry t c j run' → i ≠ j →
          SvgWriter.y run = SvgWriter.y run' →
          x2 run + 1 < x1 run' ∨ x2 run' + 1 < x1 run).
Proof.
  destruct (vectorize_inv pixels threshold w h)
    as (t & Hvec & [Hsound Hcomplete Hdisjoint]).
  exists t. split; [done|]. split.
  - intros c i run Hentry.
    destruct (vectorize_run_ok _ _ _ _ _ _ _ _ Hvec Hentry); lia.
  - intros c i j run run' Hentry Hentry' Hij Hrow.
    destruct (vectorize_run_ok _ _ _ _ _ _ _ _ Hvec Hentry)
      as (? & ? & ? & Hsolid & Hstop).
    destruct (vectorize_run_ok _ _ _ _ _ _ _ _ Hvec Hentry')
      as (? & ? & ? & Hsolid' & Hstop').
    (* a shared column would make the two entries one *)
    assert (Hapart : ∀ px, x1 run ≤ px ≤ x2 run → x1 run' ≤ px ≤ x2 run' →
                           False).
    { intros px Hpx Hpx'.
      destruct (Hdisjoint c i run c j run' px (SvgWriter.y run));
        unfold covers; auto. }
    destruct (decide (x2 run < x1 run')) as [Hleft|Hright].
    + left. destruct (decide (x2 run + 1 = x1 run')) as [Htouch|]; [|lia].
      (* touching: the pixel after [run] starts [run'], so it is solid *)
      exfalso. apply Hstop; [lia|].
      rewrite Htouch, Hrow. apply Hsolid'. lia.
    + destruct (decide (x2 run' < x1 run)) as [Hleft'|Hover].
      * right.
        destruct (decide (x2 run' + 1 = x1 run)) as [Htouch|]; [|lia].
        exfalso. apply Hstop'; [lia|].
        rewrite Htouch, <- Hrow. apply Hsolid. lia.
      * (* the intervals intersect *)
        exfalso. apply (Hapart (Z.max (x1 run) (x1 run'))); lia.
Qed.

(** *** A bitmap of one solid colour *)

Section SingleColor.

Context (pixels : Z → Z → pixel) (threshold w h : Z) (r g b : Z).

Hypothesis Hfull : single_colored pixels threshold w h r g b.

Lemma single_colored_solid x y :
  0 ≤ x < w → 0 ≤ y < h → solid pixels threshold (r, g, b, 255) x y.
Proof.
  intros Hx Hy. destruct (Hfull x y Hx Hy) as (a & rest & Hp & Ha).
  eapply solid_tuple; [done|]. by apply Z.ltb_ge.
Qed.

(** The inner loop runs to the end of the row. *)
Lemma extend_run_full x y :
  0 ≤ x ≤ w → 0 ≤ y < h →
  extend_run pixels threshold w y r g b x = w.
Proof.
  intros Hx Hy.
  destruct (extend_run_spec pixels threshold w y r g b x)
    as (Hbound & _ & Hstop); [lia|].
  destruct (decide (extend_run pixels threshold w y r g b x < w))
    as [Hlt|]; [|lia].
  destruct (Hstop Hlt). apply single_colored_solid; lia.
Qed.

(** The row loop records the whole row as one run. *)
Lemma scan_row_full y t :
  0 < w → 0 ≤ y < h →
  scan_row pixels threshold w y 0 t =
    append_run t (r, g, b, 255) (mkRun y 0 (w - 1)).
Proof.
  intros Hw Hy. destruct (Hfull 0 y) as (a & rest & Hp & Ha); [lia|lia|].
  simp scan_row. destruct (decide (0 < w)); [|lia]. simpl.
  rewrite Hp. simpl.
  replace (a <? threshold) with false by (symmetry; by apply Z.ltb_ge).
  rewrite extend_run_full by lia.
  simp scan_row. destruct (decide (w < w)); [lia|]. done.
Qed.

Lemma scan_rows_full (k : nat) :
  0 < w → Z.of_nat k ≤ h →
  foldl (λ color_runs y, scan_row pixels threshold w y 0 color_runs)
        ∅ (seqZ 0 (Z.of_nat k)) =
    match k with
    | O => ∅
    | S _ => {[ (r, g, b, 255) :=
                  (λ i, mkRun i 0 (w - 1)) <$> seqZ 0 (Z.of_nat k) ]}
    end.
Proof.
  intros Hw. induction k as [|k IH]; intros Hk; [done|].
  rewrite seqZ_S, foldl_snoc, IH, scan_row_full by lia.
  rewrite fmap_app. unfold append_run. destruct k as [|k].
  - by rewrite lookup_empty, insert_empty.
  - by rewrite lookup_singleton_eq, insert_singleton_eq.
Qed.

End SingleColor.

(** A bitmap without pixels gives the empty table. *)
Lemma vectorize_no_pixels (pixels : Z → Z → pixel) (threshold w h : Z) :
  w ≤ 0 ∨ h ≤ 0 →
  vectorize (bitmap pixels w h) threshold = Ok (∅, w, h).
Proof.
  intros Hempty. unfold vectorize, bitmap; simpl. do 2 f_equal.
  destruct Hempty as [Hw|Hh]; [|by rewrite seqZ_nil].
  induction (seqZ 0 h) as [|y rows IH]; [done|]. simpl.
  simp scan_row. destruct (decide (0 < w)); [lia|done].
Qed.

(** C6. For every [w] by [h] bitmap, [w] and [h] being positive as the
    dimensions of a size are, in which every pixel reaches the threshold
    and has the colour [(r, g, b)], [vectorize] returns a table with the
    single key [(r, g, b, 255)]; the list under that key has exactly [h]
    runs, and the [i]-th of them is row [i] from column [0] to column
    [w - 1]. *)
Theorem vectorize_single_color (pixels : Z → Z → pixel)
    (threshold w h r g b : Z) :
  0 < w → 0 < h →
  single_colored pixels threshold w h r g b →
  ∃ t, vectorize (bitmap pixels w h) threshold = Ok (t, w, h) ∧
       one_run_per_row w h (r, g, b, 255) t.
Proof.
  intros Hw Hh Hfull.
  exists {[ (r, g, b, 255) := (λ i, mkRun i 0 (w - 1)) <$> seqZ 0 h ]}.
  split.
  - unfold vectorize, bitmap; simpl. do 2 f_equal.
    pose proof (scan_rows_full pixels threshold w h r g b Hfull
                  (Z.to_nat h) Hw) as Hrows.
    rewrite Z2Nat.id in Hrows by lia. rewrite Hrows by lia.
    destruct (Z.to_nat h) eqn:Hk; [lia|done].
  - eexists. split; [done|]. split.
    + by rewrite length_fmap, length_seqZ.
    + intros i Hi. rewrite list_lookup_fmap, lookup_seqZ_lt by lia.
      simpl. do 2 f_equal.
Qed.

Lemma vectorize_single_color_witness :
  0 < 4 ∧ 0 < 2 ∧
  single_colored (λ _ _, Tuple [255; 0; 0; 255]) 128 4 2 255 0 0 ∧
  ∃ t, vectorize (bitmap (λ _ _, Tuple [255; 0; 0; 255]) 4 2) 128
         = Ok (t, 4, 2) ∧
       one_run_per_row 4 2 (255, 0, 0, 255) t.
Proof.
  assert (Hfull : single_colored (λ _ _, Tuple [255; 0; 0; 255])
                    128 4 2 255 0 0).
  { intros x y _ _. exists 255, []. split; [reflexivity|lia]. }
  split; [lia|]. split; [lia|]. split; [exact Hfull|].
  apply (vectorize_single_color (λ _ _, Tuple [255; 0; 0; 255])
           128 4 2 255 0 0); [lia|lia|exact Hfull].
Defined.

(** The end-to-end scenario of the specification, by evaluation. *)
Example vectorize_red_4x2 :
  vectorize (bitmap (λ _ _, Tuple [255; 0; 0; 255]) 4 2) 128 =
    Ok ({[ (255, 0, 0, 255) := [mkRun 0 0 3; mkRun 1 0 3] ]}, 4, 2).
Proof. vm_compute. reflexivity. Qed.

(** Two colours and a transparent pixel on one row: red, red, clear, red,
    green.  The two red runs are kept apart by the clear column. *)
Example vectorize_gap_and_colors :
  vectorize
    (bitmap (λ x _, if x =? 2 then Tuple [0; 0; 0; 0]
                    else if x =? 4 then Tuple [0; 255; 0; 255]
                    else Tuple [255; 0; 0; 200]) 5 1) 128 =
    Ok ({[ (255, 0, 0, 255) := [mkRun 0 0 1; mkRun 0 3 3];
           (0, 255, 0, 255) := [mkRun 0 4 4] ]}, 5, 1).
Proof. vm_compute. reflexivity. Qed.

(** ** Path emission *)

Section PathEmitter.

Lemma append_nil_l s : "" +:+ s = s.
Proof. done. Qed.

Lemma append_cons c s s' : String c s +:+ s' = String c (s +:+ s').
Proof. done. Qed.

(** *** Decimal numerals read back as the number written *)

Lemma to_int_cases n :
  (∃ d, d ≠ Decimal.Nil ∧ Z.to_int n = Decimal.Pos d) ∨
  (∃ d, d ≠ Decimal.Nil ∧ Z.to_int n = Decimal.Neg d).
Proof.
  destruct n as [|p|p]; simpl.
  - left. exists (Decimal.D0 Decimal.Nil). by split.
  - left. eexists. split; [|done]. apply Unsigned.to_uint_nonnil.
  - right. eexists. split; [|done]. apply Unsigned.to_uint_nonnil.
Qed.

Lemma string_of_uint_nonnil d :
  d ≠ Decimal.Nil → NilZero.string_of_uint d = NilEmpty.string_of_uint d.
Proof. by destruct d. Qed.

Lemma span_digits_uint d rest :
  match rest with
  | String c _ => is_digit c = false
  | EmptyString => True
  end →
  span_digits (NilEmpty.string_of_uint d +:+ rest) =
    (NilEmpty.string_of_uint d, rest).
Proof.
  intros Hrest. induction d; simpl; try (rewrite IHd; done).
  destruct rest as [|c rest]; [done|]. simpl. by rewrite Hrest.
Qed.

Lemma read_sign_minus s : read_sign (String "-" s) = ("-"%string, s).
Proof. done. Qed.

Lemma read_sign_uint d rest :
  d ≠ Decimal.Nil →
  read_sign (NilEmpty.string_of_uint d +:+ rest) =
    (EmptyString, NilEmpty.string_of_uint d +:+ rest).
Proof. by destruct d. Qed.

(** [str n] followed by a character that is not a digit reads back as
    [n], and the reader stops in front of that character. *)
Lemma read_int_str n c rest :
  is_digit c = false →
  read_int (str n +:+ String c rest) = Some (n, String c rest).
Proof.
  intros Hc. unfold str, read_int.
  pose proof (DecimalZ.of_to n) as Hn.
  destruct (to_int_cases n) as [(d & Hd & Heq)|(d & Hd & Heq)];
    rewrite Heq in *.
  - assert (Hread : NilZero.int_of_string (NilEmpty.string_of_uint d)
                    = Some (Decimal.Pos d)).
    { rewrite <- (string_of_uint_nonnil d Hd).
      apply (NilZero.isi (Decimal.Pos d)); congruence. }
    simpl NilZero.string_of_int. rewrite string_of_uint_nonnil by done.
    rewrite read_sign_uint, span_digits_uint by done.
    rewrite append_nil_l, Hread. by rewrite <- Hn.
  - assert (Hread : NilZero.int_of_string
                      (String "-" (NilEmpty.string_of_uint d))
                    = Some (Decimal.Neg d)).
    { rewrite <- (string_of_uint_nonnil d Hd).
      apply (NilZero.isi (Decimal.Neg d)); congruence. }
    simpl NilZero.string_of_int. rewrite string_of_uint_nonnil by done.
    rewrite append_cons, read_sign_minus, span_digits_uint by done.
    rewrite append_cons, append_nil_l, Hread. by rewrite <- Hn.
Qed.

(** The text written for one run reads back as a closed rectangle. *)
Lemma read_subpath_subpath x1 y x2 :
  read_subpath (subpath x1 y x2) = Some (rectangle (x1, y) (x2, y + 1)).
Proof.
  unfold read_subpath, subpath.
  repeat (rewrite ?append_cons, ?append_nil_l; simpl;
          rewrite ?read_int_str by done; simpl).
  done.
Qed.

(** *** Joining with spaces and splitting at spaces *)

Lemma space_free_app s s' :
  space_free (s +:+ s') = space_free s && space_free s'.
Proof.
  induction s as [|c s IH]; [done|].
  rewrite append_cons. simpl. by rewrite IH, andb_assoc.
Qed.

Lemma space_free_uint d : space_free (NilEmpty.string_of_uint d) = true.
Proof. induction d; simpl; done. Qed.

Lemma space_free_str n : space_free (str n) = true.
Proof.
  unfold str. destruct (to_int_cases n) as [(d & Hd & ->)|(d & Hd & ->)];
    simpl; rewrite string_of_uint_nonnil by done; apply space_free_uint.
Qed.

Lemma space_free_subpath x1 y x2 : space_free (subpath x1 y x2) = true.
Proof. unfold subpath. by rewrite !space_free_app, !space_free_str. Qed.

Lemma split_spaces_free s : space_free s = true → split_spaces s = [s].
Proof.
  induction s as [|c s IH]; [done|]. simpl.
  intros [Hc Hs]%andb_true_iff. destruct (Ascii.eqb c " "); [done|].
  by rewrite IH.
Qed.

Lemma split_spaces_sep s s' :
  space_free s = true →
  split_spaces (s +:+ " " +:+ s') = s :: split_spaces s'.
Proof.
  induction s as [|c s IH]; [done|]. rewrite append_cons. simpl.
  intros [Hc Hs]%andb_true_iff. destruct (Ascii.eqb c " "); [done|].
  by rewrite IH.
Qed.

Lemma split_spaces_concat part parts :
  Forall (λ s, space_free s = true) (part :: parts) →
  split_spaces (String.concat " " (part :: parts)) = part :: parts.
Proof.
  revert part. induction parts as [|part' parts IH]; intros part Hfree.
  - apply split_spaces_free. by inversion Hfree.
  - inversion Hfree as [|? ? Hpart Hparts]; subst.
    change (String.concat " " (part :: part' :: parts))
      with (part +:+ " " +:+ String.concat " " (part' :: parts)).
    by rewrite split_spaces_sep, IH.
Qed.

(** *** The emitter *)

(** The loop appends one part per run, in order. *)
Lemma runs_to_path_d_parts (runs : list Run) :
  runs_to_path_d runs = String.concat " " (run_subpath <$> runs).
Proof.
  unfold runs_to_path_d. f_equal.
  enough (∀ parts,
    foldl (λ parts run, parts ++ [subpath (x1 run) (SvgWriter.y run)
                                    (x2 run + 1)]) parts runs
    = parts ++ (run_subpath <$> runs)) as Hloop by apply (Hloop []).
  induction runs as [|run runs IH]; intros parts; simpl.
  - by rewrite app_nil_r.
  - by rewrite IH, <- app_assoc.
Qed.

Lemma run_subpath_cons (run : Run) : ∃ s, run_subpath run = String "M" s.
Proof. unfold run_subpath, subpath. rewrite append_cons. by eexists. Qed.

Lemma concat_cons_nonempty c s parts :
  String.concat " " (String c s :: parts) ≠ EmptyString.
Proof. destruct parts; simpl; [done|]. by rewrite append_cons. Qed.

Lemma read_subpath_run (run : Run) :
  read_subpath (run_subpath run) = Some (run_rectangle run).
Proof. apply read_subpath_subpath. Qed.

Lemma read_subpaths_runs (runs : list Run) :
  mapM read_subpath (run_subpath <$> runs) = Some (run_rectangle <$> runs).
Proof.
  induction runs as [|run runs IH]; [done|].
  rewrite !fmap_cons. simpl. by rewrite read_subpath_run, IH.
Qed.

End PathEmitter.

(** C5. For every list of runs, the path data written by [runs_to_path_d]
    is the texts of the runs, one per run and in input order, joined by
    single spaces with nothing after the last; read as SVG path data it is
    exactly one closed subpath per run, in the same order, the subpath of a
    run being the rectangle from [(x1, y)] to [(x2 + 1, y + 1)], which
    covers the unit squares of columns [x1 .. x2] of row [y] and no
    others.  The empty list of runs gives the empty string. *)
Theorem runs_to_path_d_rectangles (runs : list Run) :
  runs_to_path_d runs = String.concat " " (run_subpath <$> runs) ∧
  read_path (runs_to_path_d runs) = Some (run_rectangle <$> runs) ∧
  (∀ run, space_free (run_subpath run) = true) ∧
  (∀ run px py,
     covers run px py ↔
     unit_square_within (x1 run, SvgWriter.y run)
                        (x2 run + 1, SvgWriter.y run + 1) px py) ∧
  runs_to_path_d [] = "".
Proof.
  split; [apply runs_to_path_d_parts|]. split; [|split; [|split; [|done]]].
  - rewrite runs_to_path_d_parts. destruct runs as [|run runs]; [done|].
    unfold read_path.
    destruct (String.concat " " (run_subpath <$> run :: runs)) eqn:Hd.
    { (* a subpath is never empty, so neither is the joined text *)
      exfalso. destruct (run_subpath_cons run) as (s & Hs).
      rewrite fmap_cons, Hs in Hd. by apply concat_cons_nonempty in Hd. }
    rewrite <- Hd, fmap_cons, split_spaces_concat.
    + rewrite <- fmap_cons. apply read_subpaths_runs.
    + rewrite <- fmap_cons. apply Forall_fmap, Forall_forall. intros r _.
      apply space_free_subpath.
  - intros run. apply space_free_subpath.
  - intros run px py. unfold covers, unit_square_within. simpl. lia.
Qed.

(** The example of the docstring and the single run of the
    specification, by evaluation. *)
Example runs_to_path_d_two_rows :
  runs_to_path_d [mkRun 0 0 3; mkRun 1 0 3] = "M0,0H4V1H0Z M0,1H4V2H0Z"%string.
Proof. reflexivity. Qed.

Example runs_to_path_d_one_run :
  runs_to_path_d [mkRun 0 0 3] = "M0,0H4V1H0Z"%string ∧
  read_path (runs_to_path_d [mkRun 0 0 3]) =
    Some [rectangle (0, 0) (4, 1)].
Proof. split; reflexivity. Qed.

(** The reader is strict about separators: a trailing space or a doubled
    space is not path data it accepts. *)
Example read_path_rejects_trailing_space :
  read_path "M0,0H4V1H0Z " = None ∧
  read_path "M0,0H4V1H0Z  M0,1H4V2H0Z" = None.
Proof. split; reflexivity. Qed.

(** * Further properties of the code *)

(** ** Size selection, continued *)

Section SelectMore.

Implicit Types (available : list Size) (desired : option Size) (s r : Size).

Lemma lex3_lt_asym a b : lex3_lt a b → lex3_lt b a → False.
Proof.
  destruct a as [[a1 a2] a3], b as [[b1 b2] b3]. unfold lex3_lt. lia.
Qed.

Lemma lex4_lt_asym a b : lex4_lt a b → lex4_lt b a → False.
Proof.
  destruct a as [[[a1 a2] a3] a4], b as [[[b1 b2] b3] b4].
  unfold lex4_lt. lia.
Qed.

(** [select_size] returns the size the rules single out. *)
Lemma select_size_selects available desired :
  available ≠ [] →
  ∃ r, select_size available desired = Ok r ∧ selects available desired r.
Proof.
  destruct available as [|first rest]; [done|]. intros _.
  destruct (max_from_spec largest_key first rest) as [Hlargest Hmax].
  assert (Hl : largest_of (first :: rest) (max_from largest_key first rest)).
  { split; [done|]. intros s Hs. by apply largest_key_max, Hmax. }
  destruct desired as [[dw dh]|]; [|by eexists].
  rewrite select_size_some. case_bool_decide as Hexact.
  { eexists. split; [done|]. by left. }
  destruct (List.filter _ _) as [|c cs] eqn:Hlarger.
  - eexists. split; [done|]. right; right. split; [done|]. split; [|done].
    intros s Hs Hcand.
    assert (Hc : s ∈ List.filter (fits dw dh) (first :: rest))
      by by apply elem_of_larger.
    rewrite Hlarger in Hc. by apply elem_of_nil in Hc.
  - destruct (min_from_spec nearest_key c cs) as [Hin Hmin].
    rewrite <- Hlarger in Hin, Hmin.
    apply elem_of_larger in Hin as [Hin Hfit].
    eexists. split; [done|]. right; left. split; [done|].
    split; [done|]. split; [done|].
    intros s Hs Hcand. apply nearest_key_min, Hmin. by apply elem_of_larger.
Qed.

Lemma largest_of_unique available available' r r' :
  (∀ s, s ∈ available ↔ s ∈ available') →
  largest_of available r → largest_of available' r' → r = r'.
Proof.
  intros Hsame [Hr Hmax] [Hr' Hmax'].
  destruct (Hmax r' ltac:(by apply Hsame)) as [|Hlt]; [done|].
  destruct (Hmax' r ltac:(by apply Hsame)) as [|Hlt']; [done|].
  by destruct (lex3_lt_asym _ _ Hlt Hlt').
Qed.

Lemma nearest_of_unique available available' d r r' :
  (∀ s, s ∈ available ↔ s ∈ available') →
  nearest_of available d r → nearest_of available' d r' → r = r'.
Proof.
  intros Hsame (Hr & Hc & Hmin) (Hr' & Hc' & Hmin').
  destruct (Hmin r' ltac:(by apply Hsame) Hc') as [|Hlt]; [done|].
  destruct (Hmin' r ltac:(by apply Hsame) Hc) as [|Hlt']; [done|].
  by destruct (lex4_lt_asym _ _ Hlt Hlt').
Qed.

(** The rules single out at most one size, and only the elements of
    [available] matter to them. *)
Lemma selects_unique available available' desired r r' :
  (∀ s, s ∈ available ↔ s ∈ available') →
  selects available desired r → selects available' desired r' → r = r'.
Proof.
  intros Hsame. destruct desired as [d|]; simpl;
    [|by apply largest_of_unique].
  intros [[Hin ->]|[[Hout Hn]|(Hout & Hnone & Hl)]]
         [[Hin' ->]|[[Hout' Hn']|(Hout' & Hnone' & Hl')]];
    try done; try (by destruct Hout; apply Hsame);
    try (by destruct Hout'; apply Hsame).
  - by eapply nearest_of_unique.
  - destruct Hn as (Hr & Hc & _).
    by destruct (Hnone' r ltac:(by apply Hsame)).
  - destruct Hn' as (Hr' & Hc' & _).
    by destruct (Hnone r' ltac:(by apply Hsame)).
  - by eapply largest_of_unique.
Qed.

End SelectMore.

(** X1. [select_size] depends only on which sizes are available, not on
    the order of the list or on repetitions in it: two lists with the same
    elements give the same result, or both raise. *)
Theorem select_size_same_elements (available available' : list Size)
    (desired : option Size) :
  (∀ s, s ∈ available ↔ s ∈ available') →
  select_size available desired = select_size available' desired.
Proof.
  intros Hsame.
  destruct available as [|a l], available' as [|a' l'].
  - done.
  - pose proof (proj2 (Hsame a') ltac:(left)) as Hin.
    by apply elem_of_nil in Hin.
  - pose proof (proj1 (Hsame a) ltac:(left)) as Hin.
    by apply elem_of_nil in Hin.
  - destruct (select_size_selects (a :: l) desired) as (r & -> & Hr); [done|].
    destruct (select_size_selects (a' :: l') desired) as (r' & -> & Hr');
      [done|].
    f_equal. by eapply selects_unique.
Qed.

Lemma select_size_same_elements_witness :
  (∀ s, s ∈ [(16, 16); (64, 32); (32, 64)] ↔
        s ∈ [(32, 64); (16, 16); (32, 64); (64, 32)]) ∧
  select_size [(16, 16); (64, 32); (32, 64)] (Some (20, 40)) =
    select_size [(32, 64); (16, 16); (32, 64); (64, 32)] (Some (20, 40)).
Proof.
  assert (Hsame : ∀ s, s ∈ [(16, 16); (64, 32); (32, 64)] ↔
                       s ∈ [(32, 64); (16, 16); (32, 64); (64, 32)]).
  { intros s. rewrite !elem_of_cons. tauto. }
  split; [exact Hsame|].
  apply (select_size_same_elements _ _ (Some (20, 40)) Hsame).
Defined.

(** X2. Whenever some available size is at least as large as the desired
    one in both dimensions, so is the size returned: [select_size] falls
    back to a smaller frame only when there is no large enough one. *)
Theorem select_size_fits (available : list Size) (desired : Size) :
  (∃ s, s ∈ available ∧ candidate desired s) →
  ∃ r, select_size available (Some desired) = Ok r ∧ candidate desired r.
Proof.
  intros (s0 & Hs0 & Hc0).
  destruct (select_size_selects available (Some desired)) as (r & Hsel & Hr).
  { intros ->. by apply elem_of_nil in Hs0. }
  exists r. split; [done|].
  destruct Hr as [[_ ->]|[(_ & _ & Hc & _)|(_ & Hnone & _)]].
  - unfold candidate. lia.
  - done.
  - by destruct (Hnone s0).
Qed.

Lemma select_size_fits_witness :
  (∃ s, s ∈ [(16, 16); (48, 48); (64, 64)] ∧ candidate (40, 40) s) ∧
  ∃ r, select_size [(16, 16); (48, 48); (64, 64)] (Some (40, 40)) = Ok r ∧
       candidate (40, 40) r.
Proof.
  assert (Hc : ∃ s, s ∈ [(16, 16); (48, 48); (64, 64)] ∧
                    candidate (40, 40) s).
  { exists (64, 64). split; [do 2 right; left|]. unfold candidate; simpl. lia. }
  split; [exact Hc|].
  apply (select_size_fits [(16, 16); (48, 48); (64, 64)] (40, 40) Hc).
Defined.

(** X3. With no exact match, as soon as a square size is large enough the
    returned size is square, and no square that is large enough has a
    smaller area. *)
Theorem select_size_prefers_square (available : list Size)
    (desired : Size) :
  desired ∉ available →
  (∃ s, s ∈ available ∧ candidate desired s ∧ s.1 = s.2) →
  ∃ r, select_size available (Some desired) = Ok r ∧
       r ∈ available ∧ candidate desired r ∧ r.1 = r.2 ∧
       ∀ s, s ∈ available → candidate desired s → s.1 = s.2 →
            r.1 * r.2 ≤ s.1 * s.2.
Proof.
  intros Hout (s0 & Hs0 & Hc0 & Hsq0).
  destruct (select_size_selects available (Some desired)) as (r & Hsel & Hr).
  { intros ->. by apply elem_of_nil in Hs0. }
  exists r. split; [done|].
  destruct Hr as [[Hin _]|[(_ & Hr & Hc & Hmin)|(_ & Hnone & _)]];
    [done| |by destruct (Hnone s0)].
  split; [done|]. split; [done|].
  assert (Hsq : r.1 = r.2).
  { destruct (Hmin s0 Hs0 Hc0) as [->|Hlt]; [done|].
    destruct r as [w h], s0 as [w0 h0]. unfold lex4_lt in Hlt.
    simpl in *. lia. }
  split; [done|]. intros s Hs Hcs Hsqs.
  destruct (Hmin s Hs Hcs) as [->|Hlt]; [done|].
  destruct r as [w h], s as [w' h']. unfold lex4_lt in Hlt. simpl in *.
  lia.
Qed.

Lemma select_size_prefers_square_witness :
  ((24, 24) ∉ [(16, 32); (64, 64); (64, 32); (32, 32)]) ∧
  (∃ s, s ∈ [(16, 32); (64, 64); (64, 32); (32, 32)] ∧
        candidate (24, 24) s ∧ s.1 = s.2) ∧
  ∃ r, select_size [(16, 32); (64, 64); (64, 32); (32, 32)] (Some (24, 24))
         = Ok r ∧
       r ∈ [(16, 32); (64, 64); (64, 32); (32, 32)] ∧
       candidate (24, 24) r ∧ r.1 = r.2 ∧
       ∀ s, s ∈ [(16, 32); (64, 64); (64, 32); (32, 32)] →
            candidate (24, 24) s → s.1 = s.2 → r.1 * r.2 ≤ s.1 * s.2.
Proof.
  assert (Hout : (24, 24) ∉ [(16, 32); (64, 64); (64, 32); (32, 32)]).
  { intros Hin.
    repeat (apply elem_of_cons in Hin as [Hin|Hin]; [discriminate|]).
    by apply elem_of_nil in Hin. }
  assert (Hsq : ∃ s, s ∈ [(16, 32); (64, 64); (64, 32); (32, 32)] ∧
                     candidate (24, 24) s ∧ s.1 = s.2).
  { exists (64, 64). split; [right; left|]. unfold candidate; simpl. lia. }
  split; [exact Hout|]. split; [exact Hsq|].
  apply (select_size_prefers_square _ (24, 24) Hout Hsq).
Defined.

(** X4. Asking again for the size that was selected returns it: the result
    of [select_size] is a fixed point of the selection. *)
Theorem select_size_stable (available : list Size) (desired : option Size)
    (r : Size) :
  select_size available desired = Ok r →
  select_size available (Some r) = Ok r.
Proof.
  intros Hsel. destruct available as [|first rest]; [done|].
  destruct (select_size_selects (first :: rest) desired) as (r' & Hsel' & Hr');
    [done|].
  assert (r' = r) as -> by congruence.
  assert (Hin : r ∈ first :: rest).
  { destruct desired as [d|]; simpl in Hr'; [|by destruct Hr'].
    destruct Hr' as [[? ->]|[[_ [? _]]|(_ & _ & [? _])]]; done. }
  destruct r as [w h]. rewrite select_size_some.
  by rewrite bool_decide_eq_true_2.
Qed.

Lemma select_size_stable_witness :
  select_size [(16, 16); (48, 48); (64, 64)] (Some (40, 40)) = Ok (48, 48) ∧
  select_size [(16, 16); (48, 48); (64, 64)] (Some (48, 48)) = Ok (48, 48).
Proof.
  assert (Hsel : select_size [(16, 16); (48, 48); (64, 64)] (Some (40, 40))
                 = Ok (48, 48)) by reflexivity.
  split; [exact Hsel|].
  apply (select_size_stable _ (Some (40, 40)) (48, 48) Hsel).
Defined.

(** ** Size arguments *)

Section SplitFacts.

Lemma contains_occurrences c s :
  contains c s = true ↔ (0 < occurrences c s)%nat.
Proof.
  induction s as [|c' s IH]; simpl; [split; [done|lia]|].
  destruct (Ascii.eqb c' c); simpl; [split; [lia|done]|done].
Qed.

Lemma split_length c s : length (split c s) = S (occurrences c s).
Proof.
  induction s as [|c' s IH]; simpl; [done|].
  destruct (Ascii.eqb c' c); simpl; [by rewrite IH|].
  destruct (split c s); simpl in *; [done|lia].
Qed.

(** Joining the pieces with the separator gives the string back. *)
Lemma split_join c s :
  String.concat (String c EmptyString) (split c s) = s.
Proof.
  induction s as [|c' s IH]; [done|]. simpl split.
  destruct (Ascii.eqb_spec c' c) as [->|Hne].
  - pose proof (split_length c s) as Hlen.
    destruct (split c s) as [|piece pieces]; [done|].
    change (String.concat (String c "") ("" :: piece :: pieces))
      with (String c (String.concat (String c "") (piece :: pieces))).
    by rewrite IH.
  - pose proof (split_length c s) as Hlen.
    destruct (split c s) as [|piece pieces]; [done|].
    destruct pieces as [|piece' pieces]; simpl in *; by rewrite <- IH.
Qed.

(** No piece contains the separator. *)
Lemma split_pieces c s : Forall (λ p, occurrences c p = 0%nat) (split c s).
Proof.
  induction s as [|c' s IH]; simpl; [by repeat constructor|].
  destruct (Ascii.eqb c' c) eqn:Hc; [by constructor|].
  destruct (split c s) as [|piece pieces]; simpl.
  - repeat constructor. simpl. by rewrite Hc.
  - inversion IH; subst. constructor; [|done]. simpl. by rewrite Hc.
Qed.

Lemma split_none c s : occurrences c s = 0%nat → split c s = [s].
Proof.
  induction s as [|c' s IH]; simpl; [done|].
  destruct (Ascii.eqb c' c); [done|]. intros Hs. by rewrite IH.
Qed.

Lemma split_app c a b :
  occurrences c a = 0%nat → split c (a +:+ String c b) = a :: split c b.
Proof.
  induction a as [|c' a IH].
  - intros _. rewrite append_nil_l. simpl. by rewrite Ascii.eqb_refl.
  - rewrite append_cons. simpl. destruct (Ascii.eqb c' c); [done|].
    intros Ha. by rewrite IH.
Qed.

(** Exactly two pieces: one separator, with the pieces around it. *)
Lemma split_two c s a b :
  split c s = [a; b] ↔
  s = a +:+ String c b ∧ occurrences c a = 0%nat ∧ occurrences c b = 0%nat.
Proof.
  split.
  - intros Hsplit. pose proof (split_join c s) as Hjoin.
    pose proof (split_pieces c s) as Hpieces.
    rewrite Hsplit in Hjoin. rewrite Hsplit in Hpieces.
    apply Forall_cons in Hpieces as [Ha Hpieces].
    apply Forall_cons in Hpieces as [Hb _]. done.
  - intros (-> & Ha & Hb). by rewrite split_app, split_none.
Qed.

End SplitFacts.

Section ParseSizeArgFacts.

Context (lower : string → string) (int : string → result Z).

Lemma occurrences_app c a b :
  occurrences c (a +:+ b) = (occurrences c a + occurrences c b)%nat.
Proof.
  induction a as [|c' a IH]; [done|]. rewrite append_cons. simpl.
  rewrite IH. lia.
Qed.

(** [parse_size_arg] in terms of the pieces [split] returns. *)
Lemma parse_size_arg_split size_str w h :
  parse_size_arg lower int size_str = Ok (w, h) ↔
  0 < w ∧ 0 < h ∧
  ((occurrences "x" (lower size_str) = 0%nat ∧
    int size_str = Ok w ∧ h = w) ∨
   (∃ a b, split "x" (lower size_str) = [a; b] ∧
           int a = Ok w ∧ int b = Ok h)).
Proof.
  unfold parse_size_arg.
  pose proof (contains_occurrences "x" (lower size_str)) as Hx.
  pose proof (split_length "x" (lower size_str)) as Hlen.
  destruct (contains "x" (lower size_str)).
  - assert (0 < occurrences "x" (lower size_str))%nat by by apply Hx.
    destruct (split "x" (lower size_str)) as [|a [|b [|c rest]]];
      simpl in *; try (split; [done|]; naive_solver lia).
    destruct (int a) as [w'|e] eqn:Hia; simpl.
    2:{ split; [done|].
        intros (_ & _ & [[? _]|(a0 & b0 & [= <- <-] & ? & _)]);
          [lia|congruence]. }
    destruct (int b) as [h'|e] eqn:Hib; simpl.
    2:{ split; [done|].
        intros (_ & _ & [[? _]|(a0 & b0 & [= <- <-] & _ & ?)]);
          [lia|congruence]. }
    destruct (Z.leb_spec w' 0), (Z.leb_spec h' 0); simpl.
    1-3: split; [done|];
         intros (? & ? & [[? _]|(a0 & b0 & [= <- <-] & ? & ?)]);
           [lia|]; assert (w' = w ∧ h' = h) as [-> ->]
                     by (split; congruence); lia.
    split.
    + intros [= <- <-]. split; [lia|]. split; [lia|]. right. eauto.
    + intros (? & ? & [[? _]|(a0 & b0 & [= <- <-] & ? & ?)]); [lia|].
      congruence.
  - assert (occurrences "x" (lower size_str) = 0%nat).
    { destruct (occurrences "x" (lower size_str)); [done|].
      assert (false = true) by (apply Hx; lia). done. }
    assert (Hno : ¬ ∃ a b : string, split "x" (lower size_str) = [a; b]).
    { intros (a & b & Hsplit). rewrite Hsplit in Hlen. simpl in Hlen. lia. }
    destruct (int size_str) as [w'|e] eqn:Hi; simpl.
    2:{ split; [done|].
        intros (_ & _ & [(_ & ? & _)|(a0 & b0 & ? & _)]);
          [congruence|destruct Hno; eauto]. }
    destruct (Z.leb_spec w' 0); simpl.
    + split; [done|].
      intros (? & ? & [(_ & ? & ->)|(a0 & b0 & ? & _)]);
        [|destruct Hno; eauto].
      assert (w' = w) as -> by congruence. lia.
    + split.
      * intros [= <- <-]. split; [lia|]. split; [lia|]. by left.
      * intros (? & ? & [(_ & ? & ->)|(a0 & b0 & ? & _)]);
          [congruence|destruct Hno; eauto].
Qed.

End ParseSizeArgFacts.

(** X5. [parse_size_arg] never returns a dimension that is zero or
    negative, whatever [int] reads. *)
Theorem parse_size_arg_positive (lower : string → string)
    (int : string → result Z) (size_str : string) (w h : Z) :
  parse_size_arg lower int size_str = Ok (w, h) → 0 < w ∧ 0 < h.
Proof. intros Hok. apply parse_size_arg_split in Hok. tauto. Qed.

Lemma parse_size_arg_positive_witness :
  parse_size_arg ascii_lower decimal_int "16X32" = Ok (16, 32) ∧
  0 < 16 ∧ 0 < 32.
Proof.
  assert (Hok : parse_size_arg ascii_lower decimal_int "16X32" = Ok (16, 32))
    by reflexivity.
  split; [exact Hok|].
  apply (parse_size_arg_positive ascii_lower decimal_int "16X32" 16 32 Hok).
Defined.

(** X6. A size argument whose lower-cased form holds the separator twice
    or more is refused with the format error, before [int] is applied to
    any of its parts. *)
Theorem parse_size_arg_many_separators (lower : string → string)
    (int : string → result Z) (size_str : string) :
  (2 ≤ occurrences "x" (lower size_str))%nat →
  parse_size_arg lower int size_str =
    Raise (ValueError "--size must be like 256 or 256x256").
Proof.
  intros Hmany. unfold parse_size_arg.
  pose proof (split_length "x" (lower size_str)) as Hlen.
  replace (contains "x" (lower size_str)) with true
    by (symmetry; apply contains_occurrences; lia).
  destruct (split "x" (lower size_str)) as [|a [|b [|c rest]]];
    simpl in *; try done; lia.
Qed.

Lemma parse_size_arg_many_separators_witness :
  (2 ≤ occurrences "x" (ascii_lower "32x64X128"))%nat ∧
  parse_size_arg ascii_lower decimal_int "32x64X128" =
    Raise (ValueError "--size must be like 256 or 256x256").
Proof.
  assert (Hmany : (2 ≤ occurrences "x" (ascii_lower "32x64X128"))%nat)
    by (vm_compute; lia).
  split; [exact Hmany|].
  apply (parse_size_arg_many_separators ascii_lower decimal_int
           "32x64X128" Hmany).
Defined.

(** X7. What [parse_size_arg] accepts: it returns [(w, h)] exactly when
    both are positive and either the lower-cased argument has no separator,
    [int] reads the whole argument as [w], and [h = w]; or the lower-cased
    argument is [a], one separator, [b], and [int] reads [a] as [w] and
    [b] as [h]. *)
Theorem parse_size_arg_accepts (lower : string → string)
    (int : string → result Z) (size_str : string) (w h : Z) :
  parse_size_arg lower int size_str = Ok (w, h) ↔
  0 < w ∧ 0 < h ∧
  ((occurrences "x" (lower size_str) = 0%nat ∧
    int size_str = Ok w ∧ h = w) ∨
   (∃ a b, lower size_str = a +:+ "x" +:+ b ∧
           occurrences "x" a = 0%nat ∧ occurrences "x" b = 0%nat ∧
           int a = Ok w ∧ int b = Ok h)).
Proof.
  rewrite parse_size_arg_split. split.
  - intros (Hw & Hh & [?|(a & b & Hsplit & Ha & Hb)]); [by auto|].
    apply split_two in Hsplit as (Hl & Hoa & Hob).
    split; [done|]. split; [done|]. right. exists a, b. by rewrite Hl.
  - intros (Hw & Hh & [?|(a & b & Hl & Hoa & Hob & Ha & Hb)]); [by auto|].
    split; [done|]. split; [done|]. right. exists a, b.
    split; [|done]. by apply split_two.
Qed.

(** ** Frame sizes of an icon *)

Section LoadIcoFrames.

Lemma list_of_set_spec (items : list Size) :
  NoDup (list_of_set items) ∧ ∀ s, s ∈ list_of_set items ↔ s ∈ items.
Proof.
  unfold list_of_set. split; [apply NoDup_elements|].
  intros s. by rewrite elem_of_elements, elem_of_list_to_set.
Qed.

(** With more than one frame the loop seeks every frame in turn. *)
Lemma frames_loop_seek (im : IcoImage) (n : Z) (rows : list Z)
    (current : Z) (frames : list Size) :
  1 < n →
  (foldl (λ '(current, frames) i,
            let current := if 1 <? n then i else current in
            (current, frames ++ [frame_size im current]))
         (current, frames) rows).2
  = frames ++ (frame_size im <$> rows).
Proof.
  intros Hn. revert current frames.
  induction rows as [|i rows IH]; intros current frames; simpl.
  - by rewrite app_nil_r.
  - replace (1 <? n) with true by (symmetry; by apply Z.ltb_lt).
    replace (1 <? n) with true in IH by (symmetry; by apply Z.ltb_lt).
    by rewrite IH, <- app_assoc.
Qed.

(** The frames collected by the loop are those of indices [0 .. n - 1]. *)
Lemma frames_loop (im : IcoImage) (n : Z) :
  (foldl (λ '(current, frames) i,
            let current := if 1 <? n then i else current in
            (current, frames ++ [frame_size im current]))
         (0, []) (seqZ 0 n)).2
  = frame_size im <$> seqZ 0 n.
Proof.
  destruct (decide (1 < n)) as [Hn|Hn]; [by rewrite frames_loop_seek|].
  destruct (decide (n = 1)) as [->|Hn1]; [done|].
  by rewrite seqZ_nil by lia.
Qed.

Lemma load_ico_frames_spec (im : IcoImage) :
  NoDup (load_ico_frames im) ∧
  ∀ s, s ∈ load_ico_frames im ↔
       match info_sizes im with
       | Some (size :: sizes) => s ∈ size :: sizes
       | _ => ∃ i, 0 ≤ i < default 1 (n_frames im) ∧ s = frame_size im i
       end.
Proof.
  unfold load_ico_frames.
  assert (Hframes : ∀ s,
    s ∈ frame_size im <$> seqZ 0 (default 1 (n_frames im)) ↔
    ∃ i, 0 ≤ i < default 1 (n_frames im) ∧ s = frame_size im i).
  { intros s. rewrite list_elem_of_fmap. split.
    - intros (i & -> & Hi%elem_of_seqZ). exists i. split; [lia|done].
    - intros (i & Hi & ->). exists i. split; [done|].
      apply elem_of_seqZ. lia. }
  pose proof (frames_loop im (default 1 (n_frames im))) as Hloop.
  destruct (foldl _ _ _) as [current frames]. simpl in Hloop. subst frames.
  destruct (info_sizes im) as [[|size sizes]|].
  - destruct (list_of_set_spec
                (frame_size im <$> seqZ 0 (default 1 (n_frames im))))
      as [Hnodup Hin].
    split; [done|]. intros s. by rewrite Hin.
  - apply list_of_set_spec.
  - destruct (list_of_set_spec
                (frame_size im <$> seqZ 0 (default 1 (n_frames im))))
      as [Hnodup Hin].
    split; [done|]. intros s. by rewrite Hin.
Qed.

End LoadIcoFrames.

(** X8. [load_ico_frames] returns each size once.  When the image carries
    a non-empty [sizes] entry the result holds exactly those sizes;
    otherwise it holds exactly the sizes of the frames [0 .. n - 1], [n]
    being [n_frames], or 1 for an image without that attribute. *)
Theorem load_ico_frames_elements (im : IcoImage) :
  NoDup (load_ico_frames im) ∧
  ∀ s, s ∈ load_ico_frames im ↔
       match info_sizes im with
       | Some (size :: sizes) => s ∈ size :: sizes
       | _ => ∃ i, 0 ≤ i < default 1 (n_frames im) ∧ s = frame_size im i
       end.
Proof. apply load_ico_frames_spec. Qed.

(** X9. For an image with a non-empty [sizes] entry, or with at least one
    frame (an image without [n_frames] counts as one frame), selecting
    among the loaded sizes never raises, and the selected size is one of
    the loaded sizes. *)
Theorem select_size_of_loaded (im : IcoImage) (desired : option Size) :
  (∃ size sizes, info_sizes im = Some (size :: sizes)) ∨
  0 < default 1 (n_frames im) →
  ∃ r, select_size (load_ico_frames im) desired = Ok r ∧
       r ∈ load_ico_frames im.
Proof.
  intros Hsome.
  destruct (load_ico_frames_spec im) as [_ Hin].
  assert (Hne : load_ico_frames im ≠ []).
  { intros Hnil. rewrite Hnil in Hin.
    destruct Hsome as [(size & sizes & Hinfo)|Hn].
    - rewrite Hinfo in Hin. apply (elem_of_nil size), Hin. left.
    - assert (Hframe : ∃ i, 0 ≤ i < default 1 (n_frames im) ∧
                            frame_size im 0 = frame_size im i)
        by (exists 0; split; [lia|done]).
      destruct (info_sizes im) as [[|size sizes]|].
      + by apply (elem_of_nil (frame_size im 0)), Hin.
      + apply (elem_of_nil size), Hin. left.
      + by apply (elem_of_nil (frame_size im 0)), Hin. }
  destruct (select_size_selects _ desired Hne) as (r & Hsel & Hr).
  exists r. split; [done|].
  destruct desired as [d|]; simpl in Hr; [|by destruct Hr].
  destruct Hr as [[? ->]|[[_ [? _]]|(_ & _ & [? _])]]; done.
Qed.

Lemma select_size_of_loaded_witness :
  ((∃ size sizes,
      info_sizes (mkIcoImage None None (λ _, (48, 48)))
      = Some (size :: sizes)) ∨
   0 < default 1 (n_frames (mkIcoImage None None (λ _, (48, 48))))) ∧
  ∃ r, select_size (load_ico_frames (mkIcoImage None None (λ _, (48, 48))))
         (Some (64, 64)) = Ok r ∧
       r ∈ load_ico_frames (mkIcoImage None None (λ _, (48, 48))).
Proof.
  assert (Hsome :
    (∃ size sizes,
       info_sizes (mkIcoImage None None (λ _, (48, 48)))
       = Some (size :: sizes)) ∨
    0 < default 1 (n_frames (mkIcoImage None None (λ _, (48, 48)))))
    by (right; simpl; lia).
  split; [exact Hsome|].
  apply (select_size_of_loaded (mkIcoImage None None (λ _, (48, 48)))
           (Some (64, 64)) Hsome).
Defined.

(** ** The command line *)

Section SortedFacts.

Context {A : Type} (key : A → list Z).

Lemma insert_sorted_perm (x : A) (l : list A) :
  insert_sorted key x l ≡ₚ x :: l.
Proof.
  induction l as [|y l IH]; simpl; [done|].
  destruct (tuple_lt (key y) (key x)); [|done].
  by rewrite IH, Permutation_swap.
Qed.

Lemma sorted_perm (l : list A) : sorted key l ≡ₚ l.
Proof.
  induction l as [|x l IH]; simpl; [done|].
  unfold sorted in *. simpl. by rewrite insert_sorted_perm, IH.
Qed.

Lemma insert_sorted_sorted (x : A) (l : list A) :
  StronglySorted (λ a b, tuple_lt (key b) (key a) = false) l →
  StronglySorted (λ a b, tuple_lt (key b) (key a) = false)
                 (insert_sorted key x l).
Proof.
  induction 1 as [|y l Hl IH Hy]; simpl.
  - by repeat constructor.
  - destruct (tuple_lt (key y) (key x)) eqn:Hyx.
    + constructor; [done|].
      rewrite Forall_forall. intros z Hz.
      rewrite insert_sorted_perm in Hz. apply elem_of_cons in Hz as [->|Hz].
      * by apply tuple_lt_asym.
      * rewrite Forall_forall in Hy. by apply Hy.
    + constructor; [by constructor|].
      constructor; [done|].
      rewrite Forall_forall in Hy. rewrite Forall_forall. intros z Hz.
      eapply tuple_le_trans; [exact Hyx|]. by apply Hy.
Qed.

Lemma sorted_sorted (l : list A) :
  StronglySorted (λ a b, tuple_lt (key b) (key a) = false) (sorted key l).
Proof.
  induction l as [|x l IH]; [constructor|].
  by apply insert_sorted_sorted.
Qed.

End SortedFacts.

Section InfoFacts.

Context (lower : string → string) (int : string → result Z).

(** The listing of the sizes: every size once for each time it is given,
    in ascending order of [(area, width, height)]. *)
Lemma listing_spec (sizes : list Size) :
  sorted largest_key sizes ≡ₚ sizes ∧
  StronglySorted area_le (sorted largest_key sizes).
Proof.
  split; [apply sorted_perm|].
  pose proof (sorted_sorted largest_key sizes) as Hsorted.
  induction Hsorted as [|a l Hl IH Ha]; constructor; [done|].
  rewrite Forall_forall in Ha. rewrite Forall_forall. intros b Hb.
  unfold area_le. by apply largest_key_max, Ha.
Qed.

(** The last size of the listing is the largest. *)
Lemma listing_last (sizes : list Size) (r : Size) :
  last (sorted largest_key sizes) = Some r → largest_of sizes r.
Proof.
  destruct (listing_spec sizes) as [Hperm Hsorted]. intros Hlast.
  apply last_Some in Hlast as [front Hfront]. rewrite Hfront in *.
  split.
  - rewrite <- Hperm. apply elem_of_app. right. left.
  - intros s Hs. rewrite <- Hperm in Hs.
    apply elem_of_app in Hs as [Hs|Hs%list_elem_of_singleton]; [|by left].
    apply StronglySorted_app_1_elem_of with (x1 := s) (x2 := r) in Hsorted;
      [done|done|left].
Qed.

Lemma info_plain (sizes : list Size) (size : option string) :
  truthy size = false → sizes ≠ [] →
  info lower int sizes size false
  = Ok ("Available sizes:"%string
        :: (size_line <$> sorted largest_key sizes)).
Proof.
  intros Hsize Hne. unfold info. rewrite Hsize. simpl.
  by destruct sizes.
Qed.

End InfoFacts.

Lemma legacy_argv_cases (first : string) (rest : list string) :
  ((first ∈ ["convert"; "info"]%string ∨ startswith "-" first = true) ∧
   legacy_argv (first :: rest) = first :: rest) ∨
  legacy_argv (first :: rest) = "convert"%string :: first :: rest.
Proof.
  unfold legacy_argv. case_bool_decide as Hsub; simpl; [left; by auto|].
  destruct (startswith "-" first); simpl; [left; by auto|by right].
Qed.

(** X10. The rewriting of the arguments for legacy calls changes nothing
    when applied twice, and its result is empty or starts with a
    subcommand or an option. *)
Theorem legacy_argv_normal (argv : list string) :
  legacy_argv (legacy_argv argv) = legacy_argv argv ∧
  match legacy_argv argv with
  | [] => argv = []
  | first :: _ =>
      first ∈ ["convert"; "info"]%string ∨ startswith "-" first = true
  end.
Proof.
  destruct argv as [|first rest]; [done|].
  destruct (legacy_argv_cases first rest) as [[Hfirst ->]| ->].
  - split; [|done].
    by destruct (legacy_argv_cases first rest) as [[_ ->]|Hc];
      [|destruct Hfirst as [Hs|Ho]; unfold legacy_argv in *;
        [rewrite bool_decide_eq_true_2 in * by done
        |rewrite Ho, andb_false_r in *]].
  - split; [done|]. left. left.
Qed.

(** X11. [info --size S] reports the frame [convert --size S] opens: with
    a size argument, [info] prints what it prints, without a size
    argument, for the single size [convert_ico_to_svg] selects, and it
    raises what that selection raises. *)
Theorem info_of_selected_size (lower : string → string)
    (int : string → result Z) (sizes : list Size) (size : option string)
    (json : bool) :
  truthy size = true →
  info lower int sizes size json =
    match convert_size lower int sizes size with
    | Ok selected => info lower int [selected] None json
    | Raise e => Raise e
    end.
Proof.
  intros Hsize. unfold info, convert_size. rewrite Hsize. simpl.
  destruct (parse_size_arg lower int (default EmptyString size))
    as [desired|e]; simpl; [|reflexivity].
  unfold Size in *.
  destruct (select_size sizes (Some desired)); reflexivity.
Qed.

Lemma info_of_selected_size_witness :
  truthy (Some "40"%string) = true ∧
  info ascii_lower decimal_int [(16, 16); (48, 48); (64, 64)]
       (Some "40"%string) false =
    match convert_size ascii_lower decimal_int
            [(16, 16); (48, 48); (64, 64)] (Some "40"%string) with
    | Ok selected => info ascii_lower decimal_int [selected] None false
    | Raise e => Raise e
    end.
Proof.
  split; [reflexivity|].
  apply (info_of_selected_size ascii_lower decimal_int
           [(16, 16); (48, 48); (64, 64)] (Some "40"%string) false).
  reflexivity.
Defined.

(** X12. Without a size argument and for an icon that has sizes, the text
    report of [info] is the header line followed by one line per loaded
    size, the sizes being listed in ascending order of
    [(area, width, height)]. *)
Theorem info_lists_ascending (lower : string → string)
    (int : string → result Z) (sizes : list Size) (size : option string) :
  truthy size = false → sizes ≠ [] →
  ∃ listed,
    info lower int sizes size false
    = Ok ("Available sizes:"%string :: (size_line <$> listed)) ∧
    listed ≡ₚ sizes ∧
    StronglySorted area_le listed.
Proof.
  intros Hsize Hne. exists (sorted largest_key sizes).
  split; [by apply info_plain|]. apply listing_spec.
Qed.

Lemma info_lists_ascending_witness :
  truthy None = false ∧ [(48, 48); (16, 16); (32, 16)] ≠ [] ∧
  ∃ listed,
    info ascii_lower decimal_int [(48, 48); (16, 16); (32, 16)] None false
    = Ok ("Available sizes:"%string :: (size_line <$> listed)) ∧
    listed ≡ₚ [(48, 48); (16, 16); (32, 16)] ∧
    StronglySorted area_le listed.
Proof.
  split; [reflexivity|]. split; [discriminate|].
  apply (info_lists_ascending ascii_lower decimal_int
           [(48, 48); (16, 16); (32, 16)] None);
    [reflexivity|discriminate].
Defined.

(** X13. The last line of that report names the size a conversion without
    a size argument uses. *)
Theorem info_last_is_default (lower : string → string)
    (int : string → result Z) (sizes : list Size) (size : option string) :
  truthy size = false → sizes ≠ [] →
  ∃ lines r,
    info lower int sizes size false = Ok lines ∧
    convert_size lower int sizes size = Ok r ∧
    last lines = Some (size_line r).
Proof.
  intros Hsize Hne.
  destruct (select_size_selects sizes None Hne) as (r & Hsel & Hr).
  exists ("Available sizes:"%string
          :: (size_line <$> sorted largest_key sizes)), r.
  split; [by apply info_plain|]. split.
  { unfold convert_size. by rewrite Hsize. }
  destruct (last (sorted largest_key sizes)) as [r'|] eqn:Hlast.
  - assert (r' = r) as ->.
    { eapply (largest_of_unique sizes sizes); [done| |exact Hr].
      by apply listing_last. }
    apply last_Some in Hlast as [front ->].
    rewrite fmap_app. simpl.
    by rewrite app_comm_cons, last_snoc.
  - apply last_None in Hlast.
    pose proof (sorted_perm largest_key sizes) as Hperm.
    rewrite Hlast in Hperm. apply Permutation_nil_l in Hperm. done.
Qed.

Lemma info_last_is_default_witness :
  truthy None = false ∧ [(48, 48); (16, 16); (32, 16)] ≠ [] ∧
  ∃ lines r,
    info ascii_lower decimal_int [(48, 48); (16, 16); (32, 16)] None false
    = Ok lines ∧
    convert_size ascii_lower decimal_int [(48, 48); (16, 16); (32, 16)] None
    = Ok r ∧
    last lines = Some (size_line r).
Proof.
  split; [reflexivity|]. split; [discriminate|].
  apply (info_last_is_default ascii_lower decimal_int
           [(48, 48); (16, 16); (32, 16)] None);
    [reflexivity|discriminate].
Defined.

(** ** Scanline vectorisation, continued *)

Section ScanOrderFacts.

Context (pixels : Z → Z → pixel) (threshold w : Z).

Implicit Types (t : gmap Color (list Run)) (c : Color) (run : Run).

Lemma entry_lt_length t c i run :
  entry t c i run → (i < length (default [] (t !! c)))%nat.
Proof.
  intros (runs & Hc & Hi). rewrite Hc. simpl. by eapply lookup_lt_Some.
Qed.

Lemma append_run_nonempty t c run c' runs :
  (∀ c runs, t !! c = Some runs → runs ≠ []) →
  append_run t c run !! c' = Some runs → runs ≠ [].
Proof.
  intros Hne. unfold append_run. destruct (decide (c' = c)) as [->|Hc].
  - rewrite lookup_insert_eq. intros [= <-]. by destruct (default _ _).
  - rewrite lookup_insert_ne by done. apply Hne.
Qed.

Lemma order_inv_empty : order_inv pixels threshold w ∅ 0 0.
Proof.
  split.
  - intros c runs Hc. by rewrite lookup_empty in Hc.
  - intros c i j run run' Hentry. by apply entry_empty in Hentry.
  - intros c i run Hentry. by apply entry_empty in Hentry.
  - intros c Hx. lia.
Qed.

Lemma order_inv_skip t y x :
  order_inv pixels threshold w t y x →
  ¬ above_threshold pixels threshold x y →
  order_inv pixels threshold w t y (x + 1).
Proof.
  intros [Hne Hsorted Hleft Hedge] Hskip. split; [done|done|done|].
  intros c _ _ [_ Habove]. destruct Hskip.
  by replace (x + 1 - 1) with x in Habove by lia.
Qed.

Lemma order_inv_append t y x x' c :
  scan_inv pixels threshold w t y x →
  order_inv pixels threshold w t y x →
  0 ≤ x → x < x' ≤ w →
  (∀ px, x ≤ px < x' → solid pixels threshold c px y) →
  (x' < w → ¬ solid pixels threshold c x' y) →
  order_inv pixels threshold w (append_run t c (mkRun y x (x' - 1))) y x'.
Proof.
  intros [Hsound _ _] [Hne Hsorted Hleft Hedge] Hx Hx' Hpass Hstop. split.
  - intros c' runs. by apply append_run_nonempty.
  - intros c' i j run run'.
    intros [Hold|(Hc & Hi & Hrun)]%entry_append_run
           [Hold'|(Hc' & Hj & Hrun')]%entry_append_run Hij; subst.
    + by eapply Hsorted.
    + apply Hsound in Hold as (_ & _ & _ & Hbehind & _).
      unfold run_before; simpl. lia.
    + apply entry_lt_length in Hold'. lia.
    + lia.
  - intros c' i run [Hold|(-> & _ & ->)]%entry_append_run; [by eauto|].
    simpl. intros Hx0 Hsolid. apply (Hedge c); [lia|lia|done|].
    apply Hpass. lia.
  - intros c' _ Hw Hsolid.
    assert (c' = c) as ->.
    { eapply solid_unique; [exact Hsolid|]. apply Hpass. lia. }
    by apply Hstop.
Qed.

Lemma order_inv_next_row t y x :
  order_inv pixels threshold w t y x →
  order_inv pixels threshold w t (y + 1) 0.
Proof. intros [Hne Hsorted Hleft Hedge]. split; [done|done|done|]. lia. Qed.

(** The row loop keeps both invariants. *)
Lemma scan_row_order y x t :
  scan_inv pixels threshold w t y x →
  order_inv pixels threshold w t y x →
  0 ≤ y → 0 ≤ x ≤ w →
  order_inv pixels threshold w (scan_row pixels threshold w y x t) y w.
Proof.
  funelim (scan_row pixels threshold w y x t); intros Hinv Hord Hy Hx;
    try (match goal with
         | IH : _ → _ → _ → _ → order_inv _ _ _ ?t' _ _
           |- order_inv _ _ _ ?t' _ _ => apply IH; [| |done|lia]
         end;
         [apply scan_inv_skip|apply order_inv_skip]; try done;
         apply not_above_short;
         match goal with Hp : pixels _ _ = _ |- _ => by rewrite Hp end).
  - by assert (x = w) as -> by lia.
  - match goal with Hp : pixels _ _ = _ |- _ => rename Hp into Hpixel end.
    destruct (a <? threshold) eqn:Ha.
    + match goal with
      | IH : _ → _ → _ → _ → order_inv _ _ _ ?t' _ _
        |- order_inv _ _ _ ?t' _ _ => apply IH; [| |done|lia]
      end.
      * apply scan_inv_skip; [done|]. by eapply not_above_tuple.
      * apply order_inv_skip; [done|]. by eapply not_above_tuple.
    + simpl.
      destruct (extend_run_spec pixels threshold w y r g b (x + 1))
        as (Hbound & Hpass & Hstop); [lia|].
      assert (Hrun : ∀ px, x ≤ px < extend_run pixels threshold w y r g b
                                      (x + 1) →
                           solid pixels threshold (r, g, b, 255) px y).
      { intros px Hpx. destruct (decide (px = x)) as [->|Hne].
        - by eapply solid_tuple.
        - apply Hpass. lia. }
      match goal with
      | IH : _ → _ → _ → _ → order_inv _ _ _ ?t' _ _
        |- order_inv _ _ _ ?t' _ _ => apply IH; [| |done|lia]
      end.
      * apply scan_inv_append; [done|done|lia|lia|done|done].
      * apply order_inv_append; [done|done|lia|lia|done|done].
Qed.

Lemma scan_row_order_next y t :
  scan_inv pixels threshold w t y 0 →
  order_inv pixels threshold w t y 0 → 0 ≤ y →
  order_inv pixels threshold w (scan_row pixels threshold w y 0 t) (y + 1) 0.
Proof.
  intros Hinv Hord Hy. destruct (decide (0 ≤ w)) as [Hw|Hw].
  - eapply order_inv_next_row. by apply scan_row_order.
  - simp scan_row. destruct (decide (0 < w)); [lia|]. simpl.
    by eapply order_inv_next_row.
Qed.

Lemma scan_rows_order (k : nat) :
  order_inv pixels threshold w
    (foldl (λ color_runs y, scan_row pixels threshold w y 0 color_runs)
           ∅ (seqZ 0 (Z.of_nat k)))
    (Z.of_nat k) 0.
Proof.
  induction k as [|k IH].
  - apply order_inv_empty.
  - pose proof (scan_rows_inv pixels threshold w k) as Hinv.
    rewrite seqZ_S, foldl_snoc, Nat2Z.inj_succ. unfold Z.succ. simpl.
    apply scan_row_order_next; [done|done|lia].
Qed.

End ScanOrderFacts.

Section VectorizerMore.

Context (pixels : Z → Z → pixel) (threshold w h : Z).

(** What holds of the table [vectorize] returns. *)
Lemma vectorize_table :
  ∃ t, vectorize (bitmap pixels w h) threshold = Ok (t, w, h) ∧
       scan_inv pixels threshold w t (Z.of_nat (Z.to_nat h)) 0 ∧
       order_inv pixels threshold w t (Z.of_nat (Z.to_nat h)) 0.
Proof.
  eexists. split; [done|].
  replace (seqZ 0 h) with (seqZ 0 (Z.of_nat (Z.to_nat h)))
    by (unfold seqZ; by rewrite Nat2Z.id).
  split; [apply scan_rows_inv|apply scan_rows_order].
Qed.

(** Every key of the table has a first run. *)
Lemma vectorize_first_run t c runs :
  vectorize (bitmap pixels w h) threshold = Ok (t, w, h) →
  t !! c = Some runs → ∃ run, entry t c 0 run.
Proof.
  destruct vectorize_table as (t' & -> & _ & [Hne _ _ _]).
  intros [= <-] Hc. destruct runs as [|run rest].
  - by destruct (Hne c [] Hc).
  - exists run, (run :: rest). by split.
Qed.

(** A pixel of the bitmap that reaches the threshold is covered. *)
Lemma vectorize_covered t x y :
  vectorize (bitmap pixels w h) threshold = Ok (t, w, h) →
  0 ≤ x < w → 0 ≤ y < h → above_threshold pixels threshold x y →
  ∃ c i run, entry t c i run ∧ covers run x y.
Proof.
  destruct vectorize_table as (t' & -> & [_ Hcomplete _] & _).
  intros [= <-] Hx Hy Habove. apply Hcomplete; [|done].
  unfold scanned. lia.
Qed.

End VectorizerMore.

(** X14. The table is empty exactly when no pixel of the bitmap reaches
    the threshold; in particular a bitmap that is transparent throughout
    gives no key at all. *)
Theorem vectorize_empty_iff (pixels : Z → Z → pixel) (threshold w h : Z) :
  ∃ t, vectorize (bitmap pixels w h) threshold = Ok (t, w, h) ∧
       (t = ∅ ↔
        ∀ x y, 0 ≤ x < w → 0 ≤ y < h →
               ¬ above_threshold pixels threshold x y).
Proof.
  destruct (vectorize_table pixels threshold w h) as (t & Hvec & _ & _).
  exists t. split; [done|]. split.
  - intros -> x y Hx Hy Habove.
    destruct (vectorize_covered _ _ _ _ _ x y Hvec Hx Hy Habove)
      as (c & i & run & Hentry & _).
    by apply entry_empty in Hentry.
  - intros Hnone. apply map_empty. intros c.
    destruct (t !! c) as [runs|] eqn:Hc; [|done]. exfalso.
    destruct (vectorize_first_run _ _ _ _ _ _ _ Hvec Hc) as (run & Hentry).
    destruct (vectorize_run_ok _ _ _ _ _ _ _ _ Hvec Hentry)
      as (Hy & Hx & Hw & Hsolid & _).
    apply (Hnone (x1 run) (SvgWriter.y run)); [lia|lia|].
    eapply solid_above. apply Hsolid. lia.
Qed.

(** X15. A colour is a key of the table exactly when some pixel of the
    bitmap reaches the threshold and has that colour once its alpha is
    forced to 255; no key has an empty list of runs. *)
Theorem vectorize_keys (pixels : Z → Z → pixel) (threshold w h : Z) :
  ∃ t, vectorize (bitmap pixels w h) threshold = Ok (t, w, h) ∧
       (∀ c, is_Some (t !! c) ↔
             ∃ x y, 0 ≤ x < w ∧ 0 ≤ y < h ∧
                    solid pixels threshold c x y) ∧
       (∀ c runs, t !! c = Some runs → runs ≠ []).
Proof.
  destruct (vectorize_table pixels threshold w h)
    as (t & Hvec & _ & [Hne _ _ _]).
  exists t. split; [done|]. split; [|done]. intros c. split.
  - intros [runs Hc].
    destruct (vectorize_first_run _ _ _ _ _ _ _ Hvec Hc) as (run & Hentry).
    destruct (vectorize_run_ok _ _ _ _ _ _ _ _ Hvec Hentry)
      as (Hy & Hx & Hw & Hsolid & _).
    exists (x1 run), (SvgWriter.y run).
    split; [lia|]. split; [lia|]. apply Hsolid. lia.
  - intros (x & y & Hx & Hy & Hsolid).
    destruct (vectorize_covered _ _ _ _ _ x y Hvec Hx Hy)
      as (c' & i & run & Hentry & <- & Hin); [by eapply solid_above|].
    destruct (vectorize_run_ok _ _ _ _ _ _ _ _ Hvec Hentry)
      as (_ & _ & _ & Hsolid' & _).
    assert (c' = c) as ->
      by (eapply solid_unique; [by apply Hsolid'|done]).
    destruct Hentry as (runs & Hc & _). by exists runs.
Qed.

(** X16. Under every key the runs are in scan order: a run recorded
    earlier lies on an earlier row than one recorded later, or on the same
    row and wholly to its left. *)
Theorem vectorize_scan_order (pixels : Z → Z → pixel) (threshold w h : Z) :
  ∃ t, vectorize (bitmap pixels w h) threshold = Ok (t, w, h) ∧
       ∀ c i j run run',
         entry t c i run → entry t c j run' → (i < j)%nat →
         run_before run run'.
Proof.
  destruct (vectorize_table pixels threshold w h)
    as (t & Hvec & _ & [_ Hsorted _ _]).
  exists t. split; [done|]. apply Hsorted.
Qed.

(** X17. Every run is a maximal stretch of solid pixels of its colour: it
    lies inside the bitmap, all of its pixels are solid of the colour it is
    filed under, and neither the pixel just left of it nor the pixel just
    right of it, when inside the bitmap, is. *)
Theorem vectorize_runs_maximal (pixels : Z → Z → pixel)
    (threshold w h : Z) :
  ∃ t, vectorize (bitmap pixels w h) threshold = Ok (t, w, h) ∧
       ∀ c i run,
         entry t c i run →
         0 ≤ SvgWriter.y run < h ∧ 0 ≤ x1 run ∧ x2 run < w ∧
         (∀ px, x1 run ≤ px ≤ x2 run →
                solid pixels threshold c px (SvgWriter.y run)) ∧
         (0 < x1 run →
          ¬ solid pixels threshold c (x1 run - 1) (SvgWriter.y run)) ∧
         (x2 run + 1 < w →
          ¬ solid pixels threshold c (x2 run + 1) (SvgWriter.y run)).
Proof.
  destruct (vectorize_table pixels threshold w h)
    as (t & Hvec & _ & [_ _ Hleft _]).
  exists t. split; [done|]. intros c i run Hentry.
  destruct (vectorize_run_ok _ _ _ _ _ _ _ _ Hvec Hentry)
    as (Hy & Hx & Hw & Hsolid & Hright).
  split; [done|]. split; [lia|]. split; [done|]. split; [done|].
  split; [by eapply Hleft|done].
Qed.

(** X18. Raising the alpha threshold never adds pixels: every pixel
    covered by the table for the higher threshold is covered by the table
    for the lower one. *)
Theorem vectorize_threshold_mono (pixels : Z → Z → pixel)
    (threshold threshold' w h : Z) :
  threshold ≤ threshold' →
  ∃ t t',
    vectorize (bitmap pixels w h) threshold = Ok (t, w, h) ∧
    vectorize (bitmap pixels w h) threshold' = Ok (t', w, h) ∧
    ∀ x y,
      (∃ c i run, entry t' c i run ∧ covers run x y) →
      (∃ c i run, entry t c i run ∧ covers run x y).
Proof.
  intros Hle.
  destruct (vectorize_table pixels threshold w h) as (t & Hvec & _ & _).
  destruct (vectorize_table pixels threshold' w h) as (t' & Hvec' & _ & _).
  exists t, t'. split; [done|]. split; [done|].
  intros x y (c & i & run & Hentry & <- & Hin).
  destruct (vectorize_run_ok _ _ _ _ _ _ _ _ Hvec' Hentry)
    as (Hy & Hx & Hw & Hsolid & _).
  destruct (Hsolid x Hin) as [_ (a & Ha & Hthr)].
  eapply vectorize_covered; [done|lia|lia|].
  exists a. split; [done|lia].
Qed.

Lemma vectorize_threshold_mono_witness :
  16 ≤ 128 ∧
  ∃ t t',
    vectorize (bitmap (λ x _, Tuple [255; 0; 0; 40 * x]) 5 1) 16
      = Ok (t, 5, 1) ∧
    vectorize (bitmap (λ x _, Tuple [255; 0; 0; 40 * x]) 5 1) 128
      = Ok (t', 5, 1) ∧
    ∀ x y,
      (∃ c i run, entry t' c i run ∧ covers run x y) →
      (∃ c i run, entry t c i run ∧ covers run x y).
Proof.
  split; [lia|].
  apply (vectorize_threshold_mono (λ x _, Tuple [255; 0; 0; 40 * x])
           16 128 5 1).
  lia.
Defined.

(** *** The scan sees a pixel through [view] only *)

Section ScanView.

Context (pixels : Z → Z → pixel) (threshold w : Z).

(** One turn of the inner loop. *)
Lemma extend_run_step y r g b x :
  extend_run pixels threshold w y r g b x =
    if decide (x < w) then
      if bool_decide (view threshold (pixels x y) = Some (r, g, b, 255))
      then extend_run pixels threshold w y r g b (x + 1)
      else x
    else x.
Proof.
  rewrite extend_run_unfold_eq at 1. unfold extend_run_unfold.
  destruct (decide (x < w)); simpl; [|done].
  unfold view.
  destruct (pixels x y) as [[|r2 [|g2 [|b2 [|a2 rest]]]]|]; simpl; try done.
  destruct (a2 <? threshold); simpl; [done|].
  repeat case_bool_decide; simplify_eq/=; done.
Qed.

(** One turn of the outer loop. *)
Lemma scan_row_step y x t :
  scan_row pixels threshold w y x t =
    if decide (x < w) then
      match view threshold (pixels x y) with
      | Some (r, g, b, _) =>
          let x' := extend_run pixels threshold w y r g b (x + 1) in
          scan_row pixels threshold w y x'
            (append_run t (r, g, b, 255) (mkRun y x (x' - 1)))
      | None => scan_row pixels threshold w y (x + 1) t
      end
    else t.
Proof.
  rewrite scan_row_unfold_eq at 1. unfold scan_row_unfold.
  destruct (decide (x < w)); simpl; [|done].
  unfold view.
  destruct (pixels x y) as [[|r [|g [|b [|a rest]]]]|]; simpl; try done.
  by destruct (a <? threshold).
Qed.

End ScanView.

Section SameView.

Context (pixels pixels' : Z → Z → pixel) (threshold threshold' w : Z).

Lemma extend_run_same_view y r g b x :
  (∀ px, x ≤ px < w →
         view threshold (pixels px y) = view threshold' (pixels' px y)) →
  extend_run pixels threshold w y r g b x =
  extend_run pixels' threshold' w y r g b x.
Proof.
  remember (Z.to_nat (w - x)) as n eqn:Hn. revert x Hn.
  induction n as [|n IH]; intros x Hn Hview;
    rewrite (extend_run_step pixels), (extend_run_step pixels');
    destruct (decide (x < w)); try done; [lia|].
  rewrite Hview by lia. case_bool_decide; [|done].
  apply IH; [lia|]. intros px Hpx. apply Hview. lia.
Qed.

Lemma scan_row_same_view y x t :
  0 ≤ x →
  (∀ px, x ≤ px < w →
         view threshold (pixels px y) = view threshold' (pixels' px y)) →
  scan_row pixels threshold w y x t = scan_row pixels' threshold' w y x t.
Proof.
  remember (Z.to_nat (w - x)) as n eqn:Hn. revert x t Hn.
  induction (lt_wf n) as [n _ IH]. intros x t Hn Hx Hview.
  rewrite (scan_row_step pixels), (scan_row_step pixels').
  destruct (decide (x < w)); [|done].
  rewrite Hview by lia.
  destruct (view threshold' (pixels' x y)) as [[[[r g] b] a]|].
  - simpl.
    rewrite <- (extend_run_same_view y r g b (x + 1))
      by (intros px Hpx; apply Hview; lia).
    destruct (extend_run_spec pixels threshold w y r g b (x + 1))
      as (Hbound & _ & _); [lia|].
    eapply IH; [|done|lia|]; [lia|].
    intros px Hpx. apply Hview. lia.
  - eapply IH; [|done|lia|]; [lia|].
    intros px Hpx. apply Hview. lia.
Qed.

End SameView.

(** X19. [vectorize] sees a pixel only through the key it is filed under
    and the threshold test: two bitmaps of one size whose pixels agree on
    that, whatever their alpha values and thresholds, give the same table.
    A pixel below the threshold and a pixel that is not a tuple of four
    bands are treated alike. *)
Theorem vectorize_same_view (pixels pixels' : Z → Z → pixel)
    (threshold threshold' w h : Z) :
  (∀ x y, 0 ≤ x < w → 0 ≤ y < h →
          view threshold (pixels x y) = view threshold' (pixels' x y)) →
  vectorize (bitmap pixels w h) threshold =
  vectorize (bitmap pixels' w h) threshold'.
Proof.
  intros Hview. unfold vectorize, bitmap; simpl. do 2 f_equal.
  assert (Hrows : ∀ y, y ∈ seqZ 0 h → 0 ≤ y < h)
    by (intros y Hy%elem_of_seqZ; lia).
  generalize (∅ : gmap Color (list Run)).
  induction (seqZ 0 h) as [|y rows IH]; intros t; simpl; [done|].
  rewrite (scan_row_same_view pixels pixels' threshold threshold' w y 0 t).
  - apply IH. intros y' Hy'. apply Hrows. by right.
  - done.
  - intros px Hpx. apply Hview; [lia|]. apply Hrows. left.
Qed.

Lemma vectorize_same_view_witness :
  (∀ x y, 0 ≤ x < 3 → 0 ≤ y < 2 →
          view 128 ((λ x _, Tuple [9; 9; 9; 200 * x]) x y) =
          view 16 ((λ x _, if x =? 0 then Scalar 7
                           else Tuple [9; 9; 9; 255]) x y)) ∧
  vectorize (bitmap (λ x _, Tuple [9; 9; 9; 200 * x]) 3 2) 128 =
  vectorize (bitmap (λ x _, if x =? 0 then Scalar 7
                            else Tuple [9; 9; 9; 255]) 3 2) 16.
Proof.
  assert (Hview : ∀ x y, 0 ≤ x < 3 → 0 ≤ y < 2 →
            view 128 ((λ x _, Tuple [9; 9; 9; 200 * x]) x y) =
            view 16 ((λ x _, if x =? 0 then Scalar 7
                             else Tuple [9; 9; 9; 255]) x y)).
  { intros x y Hx _. simpl.
    assert (x = 0 ∨ x = 1 ∨ x = 2) as [->|[->| ->]] by lia; reflexivity. }
  split; [exact Hview|].
  apply (vectorize_same_view _ _ 128 16 3 2 Hview).
Defined.

(** ** Path emission, continued *)

Section PathEmitterMore.

Lemma append_assoc (s1 s2 s3 : string) :
  (s1 +:+ s2) +:+ s3 = s1 +:+ (s2 +:+ s3).
Proof.
  induction s1 as [|c s1 IH]; [done|]. by rewrite !append_cons, IH.
Qed.

Lemma concat_app (sep : string) (part : string) (parts : list string)
    (part' : string) (parts' : list string) :
  String.concat sep ((part :: parts) ++ part' :: parts') =
  String.concat sep (part :: parts) +:+ sep +:+
  String.concat sep (part' :: parts').
Proof.
  revert part. induction parts as [|p parts IH]; intros part; [done|].
  change (String.concat sep ((part :: p :: parts) ++ part' :: parts'))
    with (part +:+ sep +:+
          String.concat sep ((p :: parts) ++ part' :: parts')).
  change (String.concat sep (part :: p :: parts))
    with (part +:+ sep +:+ String.concat sep (p :: parts)).
  by rewrite IH, !append_assoc.
Qed.

(** The path data reads back as the rectangles of the runs. *)
Lemma read_path_runs (runs : list Run) :
  read_path (runs_to_path_d runs) = Some (run_rectangle <$> runs).
Proof.
  rewrite runs_to_path_d_parts. destruct runs as [|run runs]; [done|].
  unfold read_path.
  destruct (String.concat " " (run_subpath <$> run :: runs)) eqn:Hd.
  { exfalso. destruct (run_subpath_cons run) as (s & Hs).
    rewrite fmap_cons, Hs in Hd. by apply concat_cons_nonempty in Hd. }
  rewrite <- Hd, fmap_cons, split_spaces_concat.
  - rewrite <- fmap_cons. apply read_subpaths_runs.
  - rewrite <- fmap_cons. apply Forall_fmap, Forall_forall. intros r _.
    apply space_free_subpath.
Qed.

Lemma run_rectangle_inj (run run' : Run) :
  run_rectangle run = run_rectangle run' → run = run'.
Proof.
  destruct run as [y x1 x2], run' as [y' x1' x2'].
  unfold run_rectangle, rectangle; simpl. intros [= -> -> Hx2].
  f_equal. lia.
Qed.

Lemma run_rectangles_inj (runs runs' : list Run) :
  run_rectangle <$> runs = run_rectangle <$> runs' → runs = runs'.
Proof.
  revert runs'. induction runs as [|run runs IH]; intros [|run' runs'];
    try done.
  rewrite !fmap_cons. intros Heq.
  assert (Hrun : run_rectangle run = run_rectangle run') by congruence.
  assert (Hruns : run_rectangle <$> runs = run_rectangle <$> runs')
    by congruence.
  f_equal; [by apply run_rectangle_inj|by apply IH].
Qed.

End PathEmitterMore.

(** X20. The path data of two lists of runs put end to end is the path
    data of the first, a single space, and the path data of the second;
    when one of the lists is empty it is the path data of the other. *)
Theorem runs_to_path_d_app (runs runs' : list Run) :
  runs_to_path_d (runs ++ runs') =
    match runs, runs' with
    | [], _ => runs_to_path_d runs'
    | _, [] => runs_to_path_d runs
    | _, _ => runs_to_path_d runs +:+ " " +:+ runs_to_path_d runs'
    end.
Proof.
  destruct runs as [|run runs]; [done|].
  destruct runs' as [|run' runs']; [by rewrite app_nil_r|].
  rewrite !runs_to_path_d_parts, fmap_app, !fmap_cons.
  apply concat_app.
Qed.

(** X21. The path data determines the runs: two lists of runs with the
    same path data are the same list. *)
Theorem runs_to_path_d_inj (runs runs' : list Run) :
  runs_to_path_d runs = runs_to_path_d runs' → runs = runs'.
Proof.
  intros Hd. apply run_rectangles_inj.
  pose proof (read_path_runs runs) as Hread.
  rewrite Hd, read_path_runs in Hread. congruence.
Qed.

Lemma runs_to_path_d_inj_witness :
  runs_to_path_d [mkRun 0 0 3; mkRun 1 2 2] =
  runs_to_path_d [mkRun 0 0 3; mkRun 1 2 2] ∧
  [mkRun 0 0 3; mkRun 1 2 2] = [mkRun 0 0 3; mkRun 1 2 2].
Proof.
  split; [reflexivity|].
  apply (runs_to_path_d_inj [mkRun 0 0 3; mkRun 1 2 2]
           [mkRun 0 0 3; mkRun 1 2 2]).
  reflexivity.
Defined.

(** ** The vector writer *)

Section SvgVectorFacts.

(** Every byte is written as two lower-case hexadecimal digits that read
    back as the byte. *)
Lemma format_02x_byte (n : Z) :
  0 ≤ n ≤ 255 →
  ∃ hi lo, format_02x n = String hi (String lo EmptyString) ∧
           read_byte hi lo = Some n.
Proof.
  intros Hn.
  assert (Hall : forallb
    (λ n, match format_02x n with
          | String hi (String lo EmptyString) =>
              bool_decide (read_byte hi lo = Some n)
          | _ => false
          end) (seqZ 0 256) = true) by (vm_compute; reflexivity).
  rewrite forallb_forall in Hall.
  specialize (Hall n). rewrite <- list_elem_of_In, elem_of_seqZ in Hall.
  specialize (Hall ltac:(lia)).
  destruct (format_02x n) as [|hi [|lo [|? ?]]]; try done.
  exists hi, lo. split; [done|]. by apply bool_decide_eq_true in Hall.
Qed.

Lemma read_fill_of (r g b : Z) :
  0 ≤ r ≤ 255 → 0 ≤ g ≤ 255 → 0 ≤ b ≤ 255 →
  read_fill (fill_of r g b) = Some (r, g, b).
Proof.
  intros Hr Hg Hb. unfold fill_of.
  destruct (format_02x_byte r Hr) as (r1 & r0 & -> & Hrr).
  destruct (format_02x_byte g Hg) as (g1 & g0 & -> & Hgg).
  destruct (format_02x_byte b Hb) as (b1 & b0 & -> & Hbb).
  rewrite !append_cons, !append_nil_l. simpl.
  by rewrite Hrr, Hgg, Hbb.
Qed.

Context {E : Type}.
Context (check_drawing : Drawing → option E)
        (check_element check_add : Drawing → element → option E)
        (check_save : Drawing → option E).
Context (output : string) (width height : Z).

Lemma first_raised_app (cs1 cs2 : list (option E)) :
  first_raised (cs1 ++ cs2) =
    match first_raised cs1 with
    | Some e => Some e
    | None => first_raised cs2
    end.
Proof. induction cs1 as [|[e|] cs1 IH]; simpl; done. Qed.

(** One element created and added. *)
Lemma add_element_checks (held : list element) (el : element)
    (checks : list (option E)) :
  first_raised
    (check_element (drawing_with output width height held) el ::
     check_add (drawing_with output width height held) el :: checks) =
  match
    checked (check_element (drawing_with output width height held) el) el
    ≫= add check_add (drawing_with output width height held)
  with
  | Raised e => Some e
  | Done _ => first_raised checks
  end.
Proof.
  simpl. destruct (check_element _ el); [done|]. simpl.
  unfold add. by destruct (check_add _ el).
Qed.

(** The loop of the writer: it adds the paths of the items one by one and
    stops at the first check that raises. *)
Lemma add_paths_checks (items : list (Color * list Run))
    (held : list element) (rest : list (option E)) :
  first_raised
    (element_checks check_element check_add
       (drawing_with output width height) held (item_path <$> items)
     ++ rest) =
  match
    add_paths check_element check_add
      (drawing_with output width height held) items
  with
  | Raised e => Some e
  | Done _ => first_raised rest
  end ∧
  ∀ dwg,
    add_paths check_element check_add
      (drawing_with output width height held) items = Done dwg →
    dwg = drawing_with output width height (held ++ (item_path <$> items)).
Proof.
  revert held.
  induction items as [|[[[[r g] b] a] runs] items IH]; intros held.
  - simpl. split; [done|]. intros dwg [= <-]. by rewrite app_nil_r.
  - rewrite fmap_cons. cbn [element_checks app add_paths item_path].
    unfold path.
    destruct (check_element _ _) as [e|]; [done|].
    cbn [checked mbind outcome_bind first_raised]. unfold add.
    destruct (check_add _ _) as [e|]; [done|].
    cbn [checked mbind outcome_bind first_raised].
    change (mkDrawing _ _ _ (_ ++ [?el]))
      with (drawing_with output width height (held ++ [el])).
    destruct (IH (held ++ [Path (runs_to_path_d runs) (fill_of r g b)
                             "none"])) as [IH1 IH2].
    split; [done|]. intros dwg Hdwg. rewrite (IH2 dwg Hdwg).
    by rewrite <- app_assoc.
Qed.

(** The loop and the saving that follows it. *)
Lemma add_paths_save (items : list (Color * list Run))
    (held : list element) :
  add_paths check_element check_add
    (drawing_with output width height held) items
  ≫= save check_save =
  let els := held ++ (item_path <$> items) in
  match
    first_raised
      (element_checks check_element check_add
         (drawing_with output width height) held (item_path <$> items)
       ++ [check_save (drawing_with output width height els)])
  with
  | Some e => Raised e
  | None => Done (drawing_with output width height els)
  end.
Proof.
  cbv zeta.
  destruct (add_paths_checks items held
              [check_save (drawing_with output width height
                             (held ++ (item_path <$> items)))])
    as [Hfirst Hdone].
  rewrite Hfirst.
  destruct (add_paths _ _ _ _) as [dwg|e]; [|done].
  rewrite (Hdone dwg eq_refl). simpl. unfold save.
  by destruct (check_save _).
Qed.

(** The whole writer, for the elements it asks for. *)
Lemma write_svg_vector_checks (color_runs : list (Color * list Run))
    (background : option string) :
  write_svg_vector check_drawing check_element check_add check_save
    color_runs width height output background =
  let els := background_rect width height background ++
             (item_path <$> color_runs) in
  match
    first_raised
      (writer_checks check_drawing check_element check_add check_save
         (drawing_with output width height) els)
  with
  | Some e => Raised e
  | None => Done (drawing_with output width height els)
  end.
Proof.
  cbv zeta. unfold write_svg_vector, writer_checks, new_drawing.
  change (mkDrawing output _ _ []) with (drawing_with output width height []).
  cbn [first_raised].
  destruct (check_drawing _) as [e|]; [done|].
  cbn [checked mbind outcome_bind].
  assert (Hplain :
    background_rect width height background = [] →
    add_paths check_element check_add
      (drawing_with output width height []) color_runs
    ≫= save check_save =
    match
      first_raised
        (element_checks check_element check_add
           (drawing_with output width height) []
           (background_rect width height background ++
            (item_path <$> color_runs))
         ++ [check_save (drawing_with output width height
               (background_rect width height background ++
                (item_path <$> color_runs)))])
    with
    | Some e => Raised e
    | None => Done (drawing_with output width height
                      (background_rect width height background ++
                       (item_path <$> color_runs)))
    end).
  { intros ->. apply (add_paths_save color_runs []). }
  destruct background as [bg|]; [|by apply Hplain].
  destruct bg as [|c bg]; [by apply Hplain|].
  unfold truthy. cbn [andb].
  destruct (String.eqb_spec (String c bg) "transparent") as [Heq|Hne].
  { cbn [negb]. apply Hplain. unfold background_rect.
    case_decide as Hd; [|done]. by destruct Hd as [_ Hd]. }
  clear Hplain. cbn [negb]. unfold background_rect.
  case_decide as Hd; [|destruct Hd; by split]. clear Hd.
  cbn [app element_checks first_raised]. unfold rect.
  destruct (check_element _ _) as [e|]; [done|].
  cbn [checked mbind outcome_bind]. unfold add at 1.
  destruct (check_add _ _) as [e|]; [done|].
  cbn [checked mbind outcome_bind].
  apply (add_paths_save color_runs [Rect (0, 0) (width, height)
                                      (String c bg)]).
Qed.

End SvgVectorFacts.

(** X22. For colour channels between 0 and 255 the fill attribute is [#]
    followed by exactly six lower-case hexadecimal digits, two per
    channel, and it reads back as the colour: different colours get
    different fills. *)
Theorem fill_of_reads_back (r g b : Z) :
  0 ≤ r ≤ 255 → 0 ≤ g ≤ 255 → 0 ≤ b ≤ 255 →
  String.length (fill_of r g b) = 7%nat ∧
  read_fill (fill_of r g b) = Some (r, g, b).
Proof.
  intros Hr Hg Hb. split; [|by apply read_fill_of].
  unfold fill_of.
  destruct (format_02x_byte r Hr) as (r1 & r0 & -> & _).
  destruct (format_02x_byte g Hg) as (g1 & g0 & -> & _).
  destruct (format_02x_byte b Hb) as (b1 & b0 & -> & _).
  by rewrite !append_cons, !append_nil_l.
Qed.

Lemma fill_of_reads_back_witness :
  0 ≤ 255 ≤ 255 ∧ 0 ≤ 10 ≤ 255 ∧ 0 ≤ 0 ≤ 255 ∧
  String.length (fill_of 255 10 0) = 7%nat ∧
  read_fill (fill_of 255 10 0) = Some (255, 10, 0).
Proof.
  split; [lia|]. split; [lia|]. split; [lia|].
  apply (fill_of_reads_back 255 10 0); lia.
Defined.

(** X23. [write_svg_vector] asks the library for a drawing, for the
    background rectangle when a background other than ["transparent"] is
    given, and then for one path per item of the dictionary, in the order
    of the items: filled with the colour of the key, without stroke, and
    with path data that reads back as the rectangles of the runs under that
    key.  It raises the first exception the library raises, on creating
    the drawing, on creating or adding an element, or on saving, and
    nothing is saved then; when the library raises none it saves the
    drawing that holds exactly these elements. *)
Theorem write_svg_vector_paths {E : Type}
    (check_drawing : Drawing → option E)
    (check_element check_add : Drawing → element → option E)
    (check_save : Drawing → option E)
    (color_runs : list (Color * list Run))
    (width height : Z) (output : string) (background : option string) :
  ∃ paths,
    Forall2 (λ el '((r, g, b, _), runs),
               ∃ d, el = Path d (fill_of r g b) "none" ∧
                    read_path d = Some (run_rectangle <$> runs))
            paths color_runs ∧
    let els := background_rect width height background ++ paths in
    write_svg_vector check_drawing check_element check_add check_save
      color_runs width height output background =
    match
      first_raised
        (writer_checks check_drawing check_element check_add check_save
           (drawing_with output width height) els)
    with
    | Some e => Raised e
    | None => Done (drawing_with output width height els)
    end.
Proof.
  exists (item_path <$> color_runs). split.
  - apply Forall2_fmap_l, Forall_Forall2_diag, Forall_forall.
    intros [[[[r g] b] a] runs] _. eexists. split; [done|].
    apply read_path_runs.
  - apply write_svg_vector_checks.
Qed.

(** A red run on a white background: the library of the examples lets
    every call through, and the rectangle and the path are saved. *)
Example write_svg_vector_red :
  write_svg_vector always hex_only (λ _, always) always
    [((255, 0, 0, 255), [mkRun 0 0 3])] 4 1 "out.svg" (Some "#ffffff") =
  Done (mkDrawing "out.svg" ("4px", "1px") "0 0 4 1"
          [Rect (0, 0) (4, 1) "#ffffff";
           Path "M0,0H4V1H0Z" "#ff0000" "none"])%string.
Proof. vm_compute. reflexivity. Qed.

(** A background the library does not take for a colour: the rectangle is
    refused, and no path is asked for. *)
Example write_svg_vector_bad_background :
  write_svg_vector always hex_only (λ _, always) always
    [((255, 0, 0, 255), [mkRun 0 0 3])] 4 1 "out.svg"
    (Some "not a color") =
  Raised "not a color"%string.
Proof. vm_compute. reflexivity. Qed.

(** A key without runs has empty path data, and a channel of 256 a fill of
    seven digits: the library refuses the path, and the item after it is
    not looked at. *)
Example write_svg_vector_bad_path :
  write_svg_vector always hex_only (λ _, always) always
    [((255, 0, 0, 255), []); ((0, 0, 0, 255), [mkRun 0 0 0])]
    4 1 "out.svg" None = Raised EmptyString ∧
  write_svg_vector always hex_only (λ _, always) always
    [((256, 0, 0, 255), [mkRun 0 0 3]); ((0, 0, 0, 255), [mkRun 0 0 0])]
    4 1 "out.svg" None = Raised "#1000000"%string.
Proof. split; vm_compute; reflexivity. Qed.
